(** * mip.py: capacitated DC selection, Basic MIP against FTHR-MIP

    A shallow embedding of [src/mip.py] and the properties of its model
    definition, solution extraction, metrics and comparison.

    Numbers.  The script computes with Python numbers read from CSV files
    (ints and binary floats).  They are embedded as exact rationals [Q]:
    comparisons, sums, products and Python's true division are the exact
    ones, and equality of computed values is [Qeq] ([==]).  Rounding error
    of binary floating point is outside this embedding.

    Identifiers.  Customer and DC identifiers are the values of the id
    columns; they are embedded as integers [Z].

    The solver.  [model.solve(pulp.PULP_CBC_CMD(msg=0))] is an opaque
    oracle: it is a parameter that maps a built model to a status and to
    the value (or [None]) it leaves in every decision variable. *)

From Stdlib Require Import QArith Qround Lqa ZArith List.
From stdpp Require Import gmap list.

Open Scope Q_scope.

(** ** The first-time hit rate, [calculate_fthr] (mip.py, lines 8-19) *)

Definition calculate_fthr (distance : Q) : Q :=
  if Qle_bool distance 5 then 0.95
  else if Qle_bool distance 10 then 0.85
  else if Qle_bool distance 15 then 0.70
  else if Qle_bool distance 20 then 0.55
  else 0.40.

(** The five values of table 3.1, in decreasing order. *)
Definition fthr_values : list Q := [0.95; 0.85; 0.70; 0.55; 0.40].


(** Every distance lies in exactly one band of the table; [band d r] says
    that [r] is the table's value for the band of [d]. *)
Inductive band (d : Q) : Q -> Prop :=
| Band1 : d <= 5 -> band d 0.95
| Band2 : 5 < d <= 10 -> band d 0.85
| Band3 : 10 < d <= 15 -> band d 0.70
| Band4 : 15 < d <= 20 -> band d 0.55
| Band5 : 20 < d -> band d 0.40.

(** ** Exceptions and the error monad

    Python raises [KeyError] on a missing dictionary key,
    [ZeroDivisionError] on [/ 0] and [TypeError] when [None] is
    formatted with a float format. *)

Inductive key :=
| KId (i : Z)
| KPair (i j : Z).

Inductive exn :=
| KeyError (k : key)
| ZeroDivisionError
| TypeError.

Inductive result (A : Type) :=
| Ok (a : A)
| Raise (e : exn).

Arguments Ok {A} a.
Arguments Raise {A} e.

#[global] Instance result_ret : MRet result := fun A a => Ok a.

#[global] Instance result_bind : MBind result :=
  fun A B f m => match m with Ok a => f a | Raise e => Raise e end.

#[global] Instance Q_inhabited : Inhabited Q := populate 0.

(** [d[k]] for the dictionaries keyed by an identifier and by a pair. *)
Definition getitem (d : gmap Z Q) (i : Z) : result Q :=
  match d !! i with Some v => Ok v | None => Raise (KeyError (KId i)) end.

Definition getitem2 (d : gmap (Z * Z) Q) (ij : Z * Z) : result Q :=
  match d !! ij with
  | Some v => Ok v
  | None => Raise (KeyError (KPair ij.1 ij.2))
  end.

Definition getassigned (d : gmap Z Z) (i : Z) : result Z :=
  match d !! i with Some j => Ok j | None => Raise (KeyError (KId i)) end.

(** Python's true division [a / b]. *)
Definition pydiv (a b : Q) : result Q :=
  if Qeq_bool b 0 then Raise ZeroDivisionError else Ok (a / b).

(** [sum(f(x) for x in l)]: starts from 0 and adds from left to right; an
    exception raised by an element ends the sum. *)
Fixpoint sum_from {A} (acc : Q) (f : A -> result Q) (l : list A) : result Q :=
  match l with
  | [] => Ok acc
  | x :: l' =>
      match f x with
      | Ok q => sum_from (acc + q) f l'
      | Raise e => Raise e
      end
  end.

Definition py_sum {A} (f : A -> result Q) (l : list A) : result Q :=
  sum_from 0 f l.

(** The mathematical sum the properties are stated with. *)
Fixpoint Qsum {A} (f : A -> Q) (l : list A) : Q :=
  match l with
  | [] => 0
  | x :: l' => f x + Qsum f l'
  end.

(** [len(l)] as a number. *)
Definition len {A} (l : list A) : Q := inject_Z (Z.of_nat (length l)).

(** ** Input tables and [ProblemData] (mip.py, lines 26-55) *)

Record MatrixRow := {
  mr_customer_id : Z;
  mr_dc_id : Z;
  mr_distance_km : Q
}.

Record DcRow := {
  dr_dc_id : Z;
  dr_capacity : Q;
  dr_fixed_cost : Q
}.

Record DemandRow := {
  de_customer_id : Z;
  de_demand : Q
}.

Record Tables := {
  matrix_df : list MatrixRow;
  dcs_df : list DcRow;
  demand_df : list DemandRow
}.

Definition TRANSPORT_COST_PER_KM : Q := 15.

(** [Series.unique()]: the distinct values in order of first appearance. *)
Definition unique (l : list Z) : list Z :=
  foldl (fun acc x => if decide (x ∈ acc) then acc else acc ++ [x]) [] l.

(** [dict(zip(keys, values))] and the insertion loop of lines 51-55: a later
    row overwrites an earlier one with the same key. *)
Definition dict_of {K V} `{Countable K} (kvs : list (K * V)) : gmap K V :=
  foldl (fun d kv => <[kv.1 := kv.2]> d) ∅ kvs.

Record ProblemData := {
  customers : list Z;
  dcs : list Z;
  demand : gmap Z Q;
  capacity : gmap Z Q;
  fixed_cost : gmap Z Q;
  distance : gmap (Z * Z) Q;
  transport_cost : gmap (Z * Z) Q;
  fthr : gmap (Z * Z) Q
}.

Definition row_key (r : MatrixRow) : Z * Z := (mr_customer_id r, mr_dc_id r).

(** Lines 35-36: the two computed columns of [matrix_df]. *)
Definition row_transport_cost (r : MatrixRow) : Q :=
  mr_distance_km r * TRANSPORT_COST_PER_KM.

Definition row_fthr (r : MatrixRow) : Q := calculate_fthr (mr_distance_km r).

Definition load (t : Tables) : ProblemData := {|
  customers := unique (map de_customer_id (demand_df t));
  dcs := unique (map dr_dc_id (dcs_df t));
  demand := dict_of (map (fun r => (de_customer_id r, de_demand r)) (demand_df t));
  capacity := dict_of (map (fun r => (dr_dc_id r, dr_capacity r)) (dcs_df t));
  fixed_cost := dict_of (map (fun r => (dr_dc_id r, dr_fixed_cost r)) (dcs_df t));
  distance := dict_of (map (fun r => (row_key r, mr_distance_km r)) (matrix_df t));
  transport_cost :=
    dict_of (map (fun r => (row_key r, row_transport_cost r)) (matrix_df t));
  fthr := dict_of (map (fun r => (row_key r, row_fthr r)) (matrix_df t))
|}.

(** [[(i, j) for i in customers for j in dcs]]. *)
Definition pairs (cs ds : list Z) : list (Z * Z) :=
  flat_map (fun i => map (fun j => (i, j)) ds) cs.

(** Every customer-DC pair has a row in the distance matrix. *)
Definition complete_matrix (pd : ProblemData) : bool :=
  forallb (fun ij => bool_decide (is_Some (distance pd !! ij)))
          (pairs (customers pd) (dcs pd)).

(** ** The MIP models (mip.py, lines 69-106 and 142-181)

    Decision variables are identified by the names pulp gives them:
    ["assign_(i,_j)"] and ["open_j"]. *)

Inductive LpVariable :=
| assign (i j : Z)
| open (j : Z).

#[global] Instance LpVariable_eq_dec : EqDecision LpVariable.
Proof. solve_decision. Defined.

(** A linear expression is the list of its terms [coefficient * variable],
    in the order in which the source adds them.  [lpSum] of a list of terms
    and [+] of two expressions both append.  (pulp keeps one coefficient per
    variable, the sum of the coefficients of its terms; in exact arithmetic
    the expression has the same value.) *)
Definition LpAffineExpression : Type := list (Q * LpVariable).

Inductive Sense :=
| LpConstraintLE
| LpConstraintEQ.

(** The names the source gives its constraints. *)
Inductive ConstraintName :=
| Customer_Assignment (i : Z)
| DC_Capacity (j : Z)
| Linking (i j : Z).

(** [c_lhs (sense) c_rhs + c_const]. *)
Record LpConstraint := {
  c_name : ConstraintName;
  c_lhs : LpAffineExpression;
  c_sense : Sense;
  c_rhs : LpAffineExpression;
  c_const : Q
}.

Inductive Variant :=
| Basic
| FTHR.

(** [variables] are the variables created by [LpVariable.dicts], all of
    category [Binary]. *)
Record LpProblem := {
  name : Variant;
  variables : list LpVariable;
  objective : LpAffineExpression;
  constraints : list LpConstraint
}.

(** [LpVariable.dicts("assign", [(i, j) ...], cat='Binary')] and
    [LpVariable.dicts("open", dcs, cat='Binary')]. *)
Definition x_basic (pd : ProblemData) : list LpVariable :=
  map (fun ij => assign ij.1 ij.2) (pairs (customers pd) (dcs pd)).

Definition y_basic (pd : ProblemData) : list LpVariable := map open (dcs pd).

Definition x_fthr (pd : ProblemData) : list LpVariable :=
  map (fun ij => assign ij.1 ij.2) (pairs (customers pd) (dcs pd)).

Definition y_fthr (pd : ProblemData) : list LpVariable := map open (dcs pd).

(** The three sums of the objectives. *)
Definition fixed_cost_terms (pd : ProblemData) : result LpAffineExpression :=
  mapM (fun j => c ← getitem (fixed_cost pd) j; mret (c, open j)) (dcs pd).

Definition transport_cost_terms (pd : ProblemData) : result LpAffineExpression :=
  mapM (fun ij => c ← getitem2 (transport_cost pd) ij; mret (c, assign ij.1 ij.2))
       (pairs (customers pd) (dcs pd)).

Definition redelivery_terms (pd : ProblemData) : result LpAffineExpression :=
  mapM (fun ij =>
          c ← getitem2 (transport_cost pd) ij;
          f ← getitem2 (fthr pd) ij;
          mret (c * (1 - f), assign ij.1 ij.2))
       (pairs (customers pd) (dcs pd)).

(** Lines 79-83. *)
Definition objective_basic (pd : ProblemData) : result LpAffineExpression :=
  fc ← fixed_cost_terms pd;
  tc ← transport_cost_terms pd;
  mret (fc ++ tc).

(** Lines 152-158. *)
Definition objective_fthr (pd : ProblemData) : result LpAffineExpression :=
  fc ← fixed_cost_terms pd;
  tc ← transport_cost_terms pd;
  rc ← redelivery_terms pd;
  mret (fc ++ tc ++ rc).

(** Lines 85-106 and 160-181: one constraint of each family. *)
Definition assignment_constraint (pd : ProblemData) (i : Z) : LpConstraint := {|
  c_name := Customer_Assignment i;
  c_lhs := map (fun j => (1, assign i j)) (dcs pd);
  c_sense := LpConstraintEQ;
  c_rhs := [];
  c_const := 1
|}.

Definition capacity_constraint (pd : ProblemData) (j : Z) : result LpConstraint :=
  load_terms ← mapM (fun i => d ← getitem (demand pd) i; mret (d, assign i j))
                    (customers pd);
  cap ← getitem (capacity pd) j;
  mret {|
    c_name := DC_Capacity j;
    c_lhs := load_terms;
    c_sense := LpConstraintLE;
    c_rhs := [(cap, open j)];
    c_const := 0
  |}.

Definition linking_constraint (ij : Z * Z) : LpConstraint := {|
  c_name := Linking ij.1 ij.2;
  c_lhs := [(1, assign ij.1 ij.2)];
  c_sense := LpConstraintLE;
  c_rhs := [(1, open ij.2)];
  c_const := 0
|}.

(** Lines 85-106. *)
Definition constraints_basic (pd : ProblemData) : result (list LpConstraint) :=
  let c1 := map (assignment_constraint pd) (customers pd) in
  c2 ← mapM (capacity_constraint pd) (dcs pd);
  let c3 := map linking_constraint (pairs (customers pd) (dcs pd)) in
  mret (c1 ++ c2 ++ c3).

(** Lines 160-181. *)
Definition constraints_fthr (pd : ProblemData) : result (list LpConstraint) :=
  let c1 := map (assignment_constraint pd) (customers pd) in
  c2 ← mapM (capacity_constraint pd) (dcs pd);
  let c3 := map linking_constraint (pairs (customers pd) (dcs pd)) in
  mret (c1 ++ c2 ++ c3).

Definition model_basic (pd : ProblemData) : result LpProblem :=
  obj ← objective_basic pd;
  cs ← constraints_basic pd;
  mret {| name := Basic; variables := x_basic pd ++ y_basic pd;
          objective := obj; constraints := cs |}.

Definition model_fthr (pd : ProblemData) : result LpProblem :=
  obj ← objective_fthr pd;
  cs ← constraints_fthr pd;
  mret {| name := FTHR; variables := x_fthr pd ++ y_fthr pd;
          objective := obj; constraints := cs |}.

(** ** Meaning of a model over a 0/1 assignment of its variables *)

Definition eval (v : LpVariable -> Q) (e : LpAffineExpression) : Q :=
  Qsum (fun t => t.1 * v t.2) e.

Definition satisfies (v : LpVariable -> Q) (c : LpConstraint) : Prop :=
  match c_sense c with
  | LpConstraintLE => eval v (c_lhs c) <= eval v (c_rhs c) + c_const c
  | LpConstraintEQ => eval v (c_lhs c) == eval v (c_rhs c) + c_const c
  end.

Definition binary (vars : list LpVariable) (v : LpVariable -> Q) : Prop :=
  Forall (fun x => v x == 0 \/ v x == 1) vars.

Definition feasible (m : LpProblem) (v : LpVariable -> Q) : Prop :=
  binary (variables m) v /\ Forall (satisfies v) (constraints m).

Definition optimal (m : LpProblem) (v : LpVariable -> Q) : Prop :=
  feasible m v /\
  forall v', feasible m v' -> eval v (objective m) <= eval v' (objective m).

(** The three constraint families as the model description states them. *)
Definition single_assignment (pd : ProblemData) (v : LpVariable -> Q) : Prop :=
  Forall (fun i => Qsum (fun j => v (assign i j)) (dcs pd) == 1) (customers pd).

Definition capacity_respected (pd : ProblemData) (v : LpVariable -> Q) : Prop :=
  Forall (fun j =>
            Qsum (fun i => (demand pd !!! i) * v (assign i j)) (customers pd)
            <= (capacity pd !!! j) * v (open j))
         (dcs pd).

Definition linked (pd : ProblemData) (v : LpVariable -> Q) : Prop :=
  Forall (fun i => Forall (fun j => v (assign i j) <= v (open j)) (dcs pd))
         (customers pd).

(** The extra term of the FTHR objective. *)
Definition redelivery_term (pd : ProblemData) (v : LpVariable -> Q) : Q :=
  Qsum (fun ij =>
          (transport_cost pd !!! ij) * (1 - (fthr pd !!! ij)) * v (assign ij.1 ij.2))
       (pairs (customers pd) (dcs pd)).

Definition total_demand (pd : ProblemData) : Q :=
  Qsum (fun i => demand pd !!! i) (customers pd).

Definition total_capacity (pd : ProblemData) : Q :=
  Qsum (fun j => capacity pd !!! j) (dcs pd).

(** The terms of the objectives when every lookup succeeds. *)
Definition fixed_terms_of (pd : ProblemData) : LpAffineExpression :=
  map (fun j => (fixed_cost pd !!! j, open j)) (dcs pd).

Definition transport_terms_of (pd : ProblemData) : LpAffineExpression :=
  map (fun ij => (transport_cost pd !!! ij, assign ij.1 ij.2))
      (pairs (customers pd) (dcs pd)).

Definition redelivery_terms_of (pd : ProblemData) : LpAffineExpression :=
  map (fun ij => ((transport_cost pd !!! ij) * (1 - (fthr pd !!! ij)),
                  assign ij.1 ij.2))
      (pairs (customers pd) (dcs pd)).

(** ** The solver oracle and [pulp.value] *)

(** [pulp.LpStatus]. *)
Inductive LpStatus :=
| NotSolved
| Optimal
| Infeasible
| Unbounded
| Undefined.

(** What a solve leaves behind: the status and [varValue] of every variable
    ([None] when the solver set no value). *)
Record Solution := {
  sol_status : LpStatus;
  varValue : LpVariable -> option Q
}.

(** [pulp.value(expression)]: [None] as soon as a variable has no value,
    else the constant 0 plus the terms, added in order. *)
Fixpoint value_from (s : Q) (e : LpAffineExpression)
         (val : LpVariable -> option Q) : option Q :=
  match e with
  | [] => Some s
  | (a, x) :: e' =>
      match val x with
      | None => None
      | Some vx => value_from (s + vx * a) e' val
      end
  end.

Definition value (e : LpAffineExpression) (val : LpVariable -> option Q) : option Q :=
  value_from 0 e val.

(** [pulp.value(variable) == 1]: exact comparison, [None == 1] is false. *)
Definition is_one (o : option Q) : bool :=
  match o with
  | Some q => Qeq_bool q 1
  | None => false
  end.

(** ** Results and metrics (mip.py, lines 113-123 and 188-204) *)

Record VariantResults := {
  r_status : LpStatus;
  r_total_cost : option Q;
  r_opened_dcs : list Z;
  r_assignments : gmap Z Z;
  r_total_distance : Q;
  r_avg_distance : Q;
  r_avg_fthr : Q;
  r_expected_redelivery : option Q
}.

(** Lines 116 and 191. *)
Definition basic_opened_dcs (pd : ProblemData) (sol : Solution) : list Z :=
  filter (fun j => is_one (varValue sol (open j)) = true) (dcs pd).

Definition fthr_opened_dcs (pd : ProblemData) (sol : Solution) : list Z :=
  filter (fun j => is_one (varValue sol (open j)) = true) (dcs pd).

(** Lines 117-118 and 192-193: a dict comprehension over all pairs; for a
    customer met several times the last pair wins. *)
Definition basic_assignments (pd : ProblemData) (sol : Solution) : gmap Z Z :=
  dict_of (filter (fun ij => is_one (varValue sol (assign ij.1 ij.2)) = true)
                  (pairs (customers pd) (dcs pd))).

Definition fthr_assignments (pd : ProblemData) (sol : Solution) : gmap Z Z :=
  dict_of (filter (fun ij => is_one (varValue sol (assign ij.1 ij.2)) = true)
                  (pairs (customers pd) (dcs pd))).

(** [d[(i, assignments[i])]]. *)
Definition at_assigned (d : gmap (Z * Z) Q) (asg : gmap Z Z) (i : Z) : result Q :=
  j ← getassigned asg i; getitem2 d (i, j).

(** Lines 121-123. *)
Definition metrics_basic (pd : ProblemData) (asg : gmap Z Z) : result (Q * Q * Q) :=
  basic_total_distance ← py_sum (at_assigned (distance pd) asg) (customers pd);
  basic_avg_distance ← pydiv basic_total_distance (len (customers pd));
  s ← py_sum (at_assigned (fthr pd) asg) (customers pd);
  basic_avg_fthr ← pydiv s (len (customers pd));
  mret (basic_total_distance, basic_avg_distance, basic_avg_fthr).

(** Lines 196-204. *)
Definition metrics_fthr (pd : ProblemData) (asg : gmap Z Z) : result (Q * Q * Q * Q) :=
  fthr_total_distance ← py_sum (at_assigned (distance pd) asg) (customers pd);
  fthr_avg_distance ← pydiv fthr_total_distance (len (customers pd));
  s ← py_sum (at_assigned (fthr pd) asg) (customers pd);
  fthr_avg_fthr ← pydiv s (len (customers pd));
  fthr_expected_redelivery ←
    py_sum (fun i =>
              c ← at_assigned (transport_cost pd) asg i;
              f ← at_assigned (fthr pd) asg i;
              mret (c * (1 - f)))
           (customers pd);
  mret (fthr_total_distance, fthr_avg_distance, fthr_avg_fthr,
        fthr_expected_redelivery).

(** Lines 114-123. *)
Definition results_basic (pd : ProblemData) (m : LpProblem) (sol : Solution)
  : result VariantResults :=
  let basic_status := sol_status sol in
  let basic_total_cost := value (objective m) (varValue sol) in
  let opened := basic_opened_dcs pd sol in
  let asg := basic_assignments pd sol in
  '(td, ad, af) ← metrics_basic pd asg;
  mret {| r_status := basic_status; r_total_cost := basic_total_cost;
          r_opened_dcs := opened; r_assignments := asg;
          r_total_distance := td; r_avg_distance := ad; r_avg_fthr := af;
          r_expected_redelivery := None |}.

(** Lines 189-204. *)
Definition results_fthr (pd : ProblemData) (m : LpProblem) (sol : Solution)
  : result VariantResults :=
  let fthr_status := sol_status sol in
  let fthr_total_cost := value (objective m) (varValue sol) in
  let opened := fthr_opened_dcs pd sol in
  let asg := fthr_assignments pd sol in
  '(td, ad, af, er) ← metrics_fthr pd asg;
  mret {| r_status := fthr_status; r_total_cost := fthr_total_cost;
          r_opened_dcs := opened; r_assignments := asg;
          r_total_distance := td; r_avg_distance := ad; r_avg_fthr := af;
          r_expected_redelivery := Some er |}.

(** ** The comparison (mip.py, lines 222-258)

    The computation times of the two solves are wall-clock readings and are
    left out. *)

Record Comparison := {
  cmp_total_cost : Q;
  cmp_total_cost_pct : Q;
  cmp_opened_dcs : Z;
  cmp_total_distance : Q;
  cmp_avg_distance : Q;
  cmp_avg_fthr : Q
}.

(** [f"{x:,.2f}"]: formatting [None] raises [TypeError]. *)
Definition fmt (x : option Q) : result Q :=
  match x with
  | Some q => Ok q
  | None => Raise TypeError
  end.

Definition comparison (b f : VariantResults) : result Comparison :=
  basic_total_cost ← fmt (r_total_cost b);
  fthr_total_cost ← fmt (r_total_cost f);
  ratio ← pydiv fthr_total_cost basic_total_cost;
  mret {|
    cmp_total_cost := fthr_total_cost - basic_total_cost;
    cmp_total_cost_pct := (ratio - 1) * 100;
    cmp_opened_dcs :=
      (Z.of_nat (length (r_opened_dcs f)) - Z.of_nat (length (r_opened_dcs b)))%Z;
    cmp_total_distance := r_total_distance f - r_total_distance b;
    cmp_avg_distance := r_avg_distance f - r_avg_distance b;
    cmp_avg_fthr := (r_avg_fthr f - r_avg_fthr b) * 100
  |}.

(** ** The script

    The script runs top to bottom and prints as it goes.  A run is what it
    has printed and done so far, and how it ended. *)

Inductive event :=
| Loaded (ncustomers ndcs : nat)
| Solve (v : Variant)
| PrintStatus (v : Variant) (s : LpStatus)
| PrintMetrics (v : Variant) (r : VariantResults)
| PrintComparison (c : Comparison)
| Exported.

Record Script (A : Type) := MkScript {
  trace : list event;
  outcome : result A
}.

Arguments MkScript {A} trace outcome.
Arguments trace {A} s.
Arguments outcome {A} s.

#[global] Instance Script_ret : MRet Script := fun A a => MkScript [] (Ok a).

#[global] Instance Script_bind : MBind Script :=
  fun A B f m =>
    match outcome m with
    | Ok a => MkScript (trace m ++ trace (f a)) (outcome (f a))
    | Raise e => MkScript (trace m) (Raise e)
    end.

Definition emit (e : event) : Script unit := MkScript [e] (Ok tt).

Definition lift {A} (r : result A) : Script A := MkScript [] r.

(** Lines 125-132 and 206-214: the status line comes first, the total cost
    is formatted next. *)
Definition print_results (v : Variant) (r : VariantResults) : Script unit :=
  emit (PrintStatus v (r_status r));;
  lift (fmt (r_total_cost r));;
  emit (PrintMetrics v r).

(** Lines 62-133. *)
Definition stage_basic (pd : ProblemData) (solve : LpProblem -> Solution)
  : Script VariantResults :=
  m ← lift (model_basic pd);
  emit (Solve Basic);;
  r ← lift (results_basic pd m (solve m));
  print_results Basic r;;
  mret r.

(** Lines 135-215. *)
Definition stage_fthr (pd : ProblemData) (solve : LpProblem -> Solution)
  : Script VariantResults :=
  m ← lift (model_fthr pd);
  emit (Solve FTHR);;
  r ← lift (results_fthr pd m (solve m));
  print_results FTHR r;;
  mret r.

(** The whole of mip.py.  The export of lines 261-341 writes files from
    values that are already computed; it is one event. *)
Definition script (t : Tables) (solve : LpProblem -> Solution) : Script unit :=
  let pd := load t in
  emit (Loaded (length (customers pd)) (length (dcs pd)));;
  rb ← stage_basic pd solve;
  rf ← stage_fthr pd solve;
  c ← lift (comparison rb rf);
  emit (PrintComparison c);;
  emit Exported.

(** The events of the Basic stage: it solves and prints nothing of the FTHR
    variant. *)
Definition basic_event (e : event) : Prop :=
  match e with
  | Solve Basic | PrintStatus Basic _ | PrintMetrics Basic _ => True
  | _ => False
  end.

(** ** Extraction as the specification words it

    The values are snapped to the nearest integer; a customer with exactly
    one DC at 1 gets that DC, any other customer gets the DC with the
    largest solved value, the lowest identifier among equals, together
    with a warning. *)

Definition spec_snap (o : option Q) : Z :=
  match o with
  | Some q => Qfloor (q + (1 # 2))
  | None => 0%Z
  end.

Definition spec_better (val : Z -> Q) (j best : Z) : bool :=
  negb (Qle_bool (val j) (val best))
  || (Qeq_bool (val j) (val best) && (j <? best)%Z).

Definition spec_argmax (val : Z -> Q) (ds : list Z) : option Z :=
  foldl (fun best j =>
           match best with
           | None => Some j
           | Some b => if spec_better val j b then Some j else Some b
           end)
        None ds.

Definition spec_extract (pd : ProblemData) (sol : Solution) (i : Z)
  : option Z * bool :=
  match filter (fun j => spec_snap (varValue sol (assign i j)) = 1%Z) (dcs pd) with
  | [j] => (Some j, false)
  | _ => (spec_argmax (fun j => default 0 (varValue sol (assign i j))) (dcs pd), true)
  end.

(** ** The scenarios of the specification

    Three customers with demand 10, 20 and 5, two DCs with fixed cost 100
    each; every distance is [km] and every capacity is [cap]. *)

Definition scenario (km cap : Q) : Tables := {|
  matrix_df :=
    [ {| mr_customer_id := 1; mr_dc_id := 1; mr_distance_km := km |};
      {| mr_customer_id := 1; mr_dc_id := 2; mr_distance_km := km |};
      {| mr_customer_id := 2; mr_dc_id := 1; mr_distance_km := km |};
      {| mr_customer_id := 2; mr_dc_id := 2; mr_distance_km := km |};
      {| mr_customer_id := 3; mr_dc_id := 1; mr_distance_km := km |};
      {| mr_customer_id := 3; mr_dc_id := 2; mr_distance_km := km |} ];
  dcs_df :=
    [ {| dr_dc_id := 1; dr_capacity := cap; dr_fixed_cost := 100 |};
      {| dr_dc_id := 2; dr_capacity := cap; dr_fixed_cost := 100 |} ];
  demand_df :=
    [ {| de_customer_id := 1; de_demand := 10 |};
      {| de_customer_id := 2; de_demand := 20 |};
      {| de_customer_id := 3; de_demand := 5 |} ]
|}.

Definition scenario_A : Tables := scenario 4 50.
Definition scenario_C : Tables := scenario 4 10.

(** Scenario A without the row of customer 3 and DC 2. *)
Definition scenario_missing : Tables := {|
  matrix_df := removelast (matrix_df scenario_A);
  dcs_df := dcs_df scenario_A;
  demand_df := demand_df scenario_A
|}.

(** Every customer served by DC 1, the only open DC. *)
Definition all_to_dc1 (x : LpVariable) : Q :=
  match x with
  | assign _ j => if (j =? 1)%Z then 1 else 0
  | open j => if (j =? 1)%Z then 1 else 0
  end.

(** A solver that finds this solution, and one that reports infeasibility
    and leaves every variable at 0. *)
Definition solve_to_dc1 (m : LpProblem) : Solution :=
  {| sol_status := Optimal; varValue := fun x => Some (all_to_dc1 x) |}.

Definition solve_infeasible (m : LpProblem) : Solution :=
  {| sol_status := Infeasible; varValue := fun _ => Some 0 |}.

(** The results with another status in the status field. *)
Definition with_status (s : LpStatus) (r : VariantResults) : VariantResults := {|
  r_status := s;
  r_total_cost := r_total_cost r;
  r_opened_dcs := r_opened_dcs r;
  r_assignments := r_assignments r;
  r_total_distance := r_total_distance r;
  r_avg_distance := r_avg_distance r;
  r_avg_fthr := r_avg_fthr r;
  r_expected_redelivery := r_expected_redelivery r
|}.

(** Two solutions that are not cleanly 0/1 per customer: one leaves every
    variable at 1 (several DCs at value 1 for a customer), the other serves
    every customer from DC 1 at the value 0.9999999 (numeric slack). *)
Definition sol_all_one : Solution :=
  {| sol_status := Optimal; varValue := fun _ => Some 1 |}.

Definition sol_slack : Solution :=
  {| sol_status := Optimal;
     varValue := fun x => Some (all_to_dc1 x * 0.9999999) |}.

(** The assignment of every customer of the scenarios to DC 1. *)
Definition asg_dc1 : gmap Z Z := <[3%Z := 1%Z]> (<[2%Z := 1%Z]> (<[1%Z := 1%Z]> ∅)).

(** ** The exported tables (mip.py, lines 270-317) *)

(** [sum(f(x) for x in l if cond(x))]: the condition is evaluated first, and
    only the elements that pass are added. *)
Fixpoint sum_if_from {A} (acc : Q) (cond : A -> result bool) (f : A -> result Q)
         (l : list A) : result Q :=
  match l with
  | [] => Ok acc
  | x :: l' =>
      match cond x with
      | Raise e => Raise e
      | Ok false => sum_if_from acc cond f l'
      | Ok true =>
          match f x with
          | Ok q => sum_if_from (acc + q) cond f l'
          | Raise e => Raise e
          end
      end
  end.

Definition py_sum_if {A} (cond : A -> result bool) (f : A -> result Q)
           (l : list A) : result Q :=
  sum_if_from 0 cond f l.

(** A row of [basic_mip_assignments.csv] and of [fthr_mip_assignments.csv];
    the last column exists in the FTHR table only. *)
Record DetailRow := {
  dt_customer_id : Z;
  dt_assigned_dc : Z;
  dt_demand : Q;
  dt_distance_km : Q;
  dt_fthr : Q;
  dt_transport_cost : Q;
  dt_expected_redelivery_cost : option Q
}.

(** Lines 271-281. *)
Definition basic_detail (pd : ProblemData) (asg : gmap Z Z) : result (list DetailRow) :=
  mapM (fun i =>
          j ← getassigned asg i;
          d ← getitem (demand pd) i;
          km ← at_assigned (distance pd) asg i;
          f ← at_assigned (fthr pd) asg i;
          c ← at_assigned (transport_cost pd) asg i;
          mret {| dt_customer_id := i; dt_assigned_dc := j; dt_demand := d;
                  dt_distance_km := km; dt_fthr := f; dt_transport_cost := c;
                  dt_expected_redelivery_cost := None |})
       (customers pd).

(** Lines 286-297. *)
Definition fthr_detail (pd : ProblemData) (asg : gmap Z Z) : result (list DetailRow) :=
  mapM (fun i =>
          j ← getassigned asg i;
          d ← getitem (demand pd) i;
          km ← at_assigned (distance pd) asg i;
          f ← at_assigned (fthr pd) asg i;
          c ← at_assigned (transport_cost pd) asg i;
          c' ← at_assigned (transport_cost pd) asg i;
          f' ← at_assigned (fthr pd) asg i;
          mret {| dt_customer_id := i; dt_assigned_dc := j; dt_demand := d;
                  dt_distance_km := km; dt_fthr := f; dt_transport_cost := c;
                  dt_expected_redelivery_cost := Some (c' * (1 - f')) |})
       (customers pd).

(** A row of [dc_summary.csv]. *)
Record DcSummaryRow := {
  ds_dc_id : Z;
  ds_opened_basic : Q;
  ds_opened_fthr : Q;
  ds_capacity : Q;
  ds_fixed_cost : Q;
  ds_customers_basic : Q;
  ds_customers_fthr : Q;
  ds_load_basic : Q;
  ds_load_fthr : Q
}.

(** [1 if j in opened_dcs else 0]. *)
Definition opened_flag (opened : list Z) (j : Z) : Q :=
  if decide (j ∈ opened) then 1 else 0.

(** [assignments[i] == j]. *)
Definition assigned_to (asg : gmap Z Z) (j : Z) (i : Z) : result bool :=
  a ← getassigned asg i; mret (bool_decide (a = j)).

(** [sum(1 for i in customers if assignments[i] == j)]. *)
Definition customers_of (pd : ProblemData) (asg : gmap Z Z) (j : Z) : result Q :=
  py_sum_if (assigned_to asg j) (fun _ => Ok 1) (customers pd).

(** [sum(demand[i] for i in customers if assignments[i] == j)]. *)
Definition load_of (pd : ProblemData) (asg : gmap Z Z) (j : Z) : result Q :=
  py_sum_if (assigned_to asg j) (getitem (demand pd)) (customers pd).

(** Lines 302-315. *)
Definition dc_summary (pd : ProblemData) (rb rf : VariantResults)
  : result (list DcSummaryRow) :=
  mapM (fun j =>
          cap ← getitem (capacity pd) j;
          fc ← getitem (fixed_cost pd) j;
          nb ← customers_of pd (r_assignments rb) j;
          nf ← customers_of pd (r_assignments rf) j;
          lb ← load_of pd (r_assignments rb) j;
          lf ← load_of pd (r_assignments rf) j;
          mret {| ds_dc_id := j;
                  ds_opened_basic := opened_flag (r_opened_dcs rb) j;
                  ds_opened_fthr := opened_flag (r_opened_dcs rf) j;
                  ds_capacity := cap; ds_fixed_cost := fc;
                  ds_customers_basic := nb; ds_customers_fthr := nf;
                  ds_load_basic := lb; ds_load_fthr := lf |})
       (dcs pd).

(** Lines 270-317: the three tables, in the order in which they are built.
    (Writing them to files, and the text report of lines 320-339, which
    formats values that were printed before, are left out.) *)
Definition export_tables (pd : ProblemData) (rb rf : VariantResults)
  : result (list DetailRow * list DetailRow * list DcSummaryRow) :=
  bd ← basic_detail pd (r_assignments rb);
  fd ← fthr_detail pd (r_assignments rf);
  ds ← dc_summary pd rb rf;
  mret (bd, fd, ds).

(** ** Notions used by the further properties *)

(** Every customer has an entry in the assignment, over an edge of the
    matrix. *)
Definition total_on (pd : ProblemData) (asg : gmap Z Z) : Prop :=
  Forall (fun i => exists j, asg !! i = Some j /\ is_Some (distance pd !! (i, j)))
         (customers pd).

(** The transport part of the objectives. *)
Definition transport_term (pd : ProblemData) (v : LpVariable -> Q) : Q :=
  Qsum (fun ij => (transport_cost pd !!! ij) * v (assign ij.1 ij.2))
       (pairs (customers pd) (dcs pd)).

(** The customers of a DC and its load under an assignment. *)
Definition count_at (pd : ProblemData) (asg : gmap Z Z) (j : Z) : Q :=
  Qsum (fun i => if bool_decide (asg !!! i = j) then 1 else 0) (customers pd).

Definition load_at (pd : ProblemData) (asg : gmap Z Z) (j : Z) : Q :=
  Qsum (fun i => if bool_decide (asg !!! i = j) then demand pd !!! i else 0)
       (customers pd).

(** What the summary row of DC [j] holds. *)
Definition summary_row (pd : ProblemData) (rb rf : VariantResults)
           (j : Z) (row : DcSummaryRow) : Prop :=
  ds_dc_id row = j /\
  ds_opened_basic row = opened_flag (r_opened_dcs rb) j /\
  ds_opened_fthr row = opened_flag (r_opened_dcs rf) j /\
  ds_capacity row = capacity pd !!! j /\
  ds_fixed_cost row = fixed_cost pd !!! j /\
  ds_customers_basic row == count_at pd (r_assignments rb) j /\
  ds_customers_fthr row == count_at pd (r_assignments rf) j /\
  ds_load_basic row == load_at pd (r_assignments rb) j /\
  ds_load_fthr row == load_at pd (r_assignments rf) j.

(** The events of the FTHR stage. *)
Definition fthr_event (e : event) : Prop :=
  match e with
  | Solve FTHR | PrintStatus FTHR _ | PrintMetrics FTHR _ => True
  | _ => False
  end.

(** Every element of the list has the value 0 or 1. *)
Definition zero_one {A} (f : A -> Q) (l : list A) : Prop :=
  Forall (fun x => f x == 0 \/ f x == 1) l.

(** The solution a solver leaves when every variable gets the value [v]. *)
Definition solution_of (st : LpStatus) (v : LpVariable -> Q) : Solution :=
  {| sol_status := st; varValue := fun x => Some (v x) |}.

(** Every customer served by DC [j], the only open DC. *)
Definition all_to (j : Z) (x : LpVariable) : Q :=
  match x with
  | assign _ j' => if (j' =? j)%Z then 1 else 0
  | open j' => if (j' =? j)%Z then 1 else 0
  end.

(** ** Tactics for properties of concrete lists *)

Ltac split_Forall :=
  repeat match goal with
         | H : Forall _ (_ :: _) |- _ => apply Forall_cons in H as [? H]
         | H : Forall _ [] |- _ => clear H
         end.

Ltac prove_Forall tac :=
  repeat (apply Forall_cons; split; [tac|]); apply Forall_nil_2.

Ltac elem_tac :=
  repeat first
    [ apply list_elem_of_here
    | assumption
    | apply list_elem_of_further
    | (apply elem_of_app; left; assumption)
    | (apply elem_of_app; right) ].

(** * Properties *)

(** ** Properties of [calculate_fthr] *)

Example calculate_fthr_4 : calculate_fthr 4 = 0.95.
Proof. reflexivity. Qed.

Example calculate_fthr_12 : calculate_fthr 12 = 0.70.
Proof. reflexivity. Qed.

Example calculate_fthr_5_eps : calculate_fthr (5 + (1 # 1000000)) = 0.85.
Proof. reflexivity. Qed.


Section FthrBands.

(** [Qle_bool] decides [<=]; the negative case gives the strict order. *)
Lemma Qle_bool_true (x y : Q) : x <= y -> Qle_bool x y = true.
Proof. apply Qle_bool_iff. Qed.

Lemma Qle_bool_false (x y : Q) : y < x -> Qle_bool x y = false.
Proof.
  intros Hlt. destruct (Qle_bool x y) eqn:E; [|reflexivity].
  apply Qle_bool_iff in E. lra.
Qed.

Lemma Qle_bool_cases (x y : Q) :
  (x <= y /\ Qle_bool x y = true) \/ (y < x /\ Qle_bool x y = false).
Proof.
  destruct (Qlt_le_dec y x) as [H|H].
  - right. split; [exact H | now apply Qle_bool_false].
  - left. split; [exact H | now apply Qle_bool_true].
Qed.

(** The band in which a distance falls determines the result. *)
Lemma fthr_band_1 d : d <= 5 -> calculate_fthr d = 0.95.
Proof. intros H. unfold calculate_fthr. now rewrite Qle_bool_true. Qed.

Lemma fthr_band_2 d : 5 < d <= 10 -> calculate_fthr d = 0.85.
Proof.
  intros [H1 H2]. unfold calculate_fthr.
  rewrite Qle_bool_false by exact H1. now rewrite Qle_bool_true.
Qed.

Lemma fthr_band_3 d : 10 < d <= 15 -> calculate_fthr d = 0.70.
Proof.
  intros [H1 H2]. unfold calculate_fthr.
  rewrite !Qle_bool_false by lra. now rewrite Qle_bool_true.
Qed.

Lemma fthr_band_4 d : 15 < d <= 20 -> calculate_fthr d = 0.55.
Proof.
  intros [H1 H2]. unfold calculate_fthr.
  rewrite !Qle_bool_false by lra. now rewrite Qle_bool_true.
Qed.

Lemma fthr_band_5 d : 20 < d -> calculate_fthr d = 0.40.
Proof.
  intros H. unfold calculate_fthr. now rewrite !Qle_bool_false by lra.
Qed.

Lemma fthr_in_band d : band d (calculate_fthr d).
Proof.
  destruct (Qlt_le_dec 5 d) as [H5|H5];
    [|rewrite fthr_band_1 by exact H5; now constructor].
  destruct (Qlt_le_dec 10 d) as [H10|H10];
    [|rewrite fthr_band_2 by (split; assumption); now constructor].
  destruct (Qlt_le_dec 15 d) as [H15|H15];
    [|rewrite fthr_band_3 by (split; assumption); now constructor].
  destruct (Qlt_le_dec 20 d) as [H20|H20];
    [|rewrite fthr_band_4 by (split; assumption); now constructor].
  rewrite fthr_band_5 by exact H20. now constructor.
Qed.

Lemma fthr_in_values d : In (calculate_fthr d) fthr_values.
Proof.
  destruct (fthr_in_band d); unfold fthr_values; simpl; tauto.
Qed.

Lemma fthr_le_1 d : calculate_fthr d <= 1.
Proof. destruct (fthr_in_band d); lra. Qed.

Lemma fthr_ge_0 d : 0 <= calculate_fthr d.
Proof. destruct (fthr_in_band d); lra. Qed.

Lemma fthr_antitone d1 d2 :
  d1 <= d2 -> calculate_fthr d2 <= calculate_fthr d1.
Proof.
  intros Hle.
  destruct (fthr_in_band d1), (fthr_in_band d2); lra.
Qed.


End FthrBands.

(** C3.  For every distance [d >= 0] the result is exactly the table's
    value for the band of [d]: 0.95 up to 5, 0.85 above 5 up to 10, 0.70
    above 10 up to 15, 0.55 above 15 up to 20, 0.40 above 20; the upper end
    of each band belongs to it, so 5.0, 10.0, 15.0 and 20.0 give 0.95,
    0.85, 0.70 and 0.55. *)
Theorem calculate_fthr_breakpoints (d : Q) :
  0 <= d ->
  (d <= 5 -> calculate_fthr d = 0.95) /\
  (5 < d <= 10 -> calculate_fthr d = 0.85) /\
  (10 < d <= 15 -> calculate_fthr d = 0.70) /\
  (15 < d <= 20 -> calculate_fthr d = 0.55) /\
  (20 < d -> calculate_fthr d = 0.40) /\
  calculate_fthr 5.0 = 0.95 /\
  calculate_fthr 10.0 = 0.85 /\
  calculate_fthr 15.0 = 0.70 /\
  calculate_fthr 20.0 = 0.55.
Proof.
  intros _.
  split; [apply fthr_band_1|].
  split; [apply fthr_band_2|].
  split; [apply fthr_band_3|].
  split; [apply fthr_band_4|].
  split; [apply fthr_band_5|].
  repeat split; reflexivity.
Qed.

Lemma calculate_fthr_breakpoints_witness :
  0 <= 12 /\ calculate_fthr 12 = 0.70.
Proof.
  assert (H0 : 0 <= 12) by lra.
  split; [exact H0|].
  destruct (calculate_fthr_breakpoints 12 H0) as (_ & _ & H & _).
  apply H. lra.
Defined.

(** C4.  On distances [0 <= d1 <= d2] the result does not increase,
    [calculate_fthr d1 >= calculate_fthr d2], and the result at a distance
    [d >= 0] is one of 0.95, 0.85, 0.70, 0.55, 0.40. *)
Theorem calculate_fthr_nonincreasing (d1 d2 : Q) :
  0 <= d1 -> 0 <= d2 -> d1 <= d2 ->
  calculate_fthr d2 <= calculate_fthr d1 /\
  calculate_fthr d1 ∈ fthr_values /\
  calculate_fthr d2 ∈ fthr_values.
Proof.
  intros _ _ Hle.
  split; [now apply fthr_antitone|].
  split; apply list_elem_of_In, fthr_in_values.
Qed.

Lemma calculate_fthr_nonincreasing_witness :
  calculate_fthr 12 <= calculate_fthr 7 /\
  calculate_fthr 7 ∈ fthr_values /\
  calculate_fthr 12 ∈ fthr_values.
Proof.
  apply (calculate_fthr_nonincreasing 7 12); lra.
Defined.

(** C10.  The function is total on all rational distances, negative ones
    included: it always returns one of the five tabulated values, and every
    distance at most 5, so every negative distance, gives 0.95. *)
Theorem calculate_fthr_total (d : Q) :
  calculate_fthr d ∈ fthr_values /\
  (d <= 5 -> calculate_fthr d = 0.95) /\
  (d < 0 -> calculate_fthr d = 0.95).
Proof.
  split; [apply list_elem_of_In, fthr_in_values|].
  split; [apply fthr_band_1|].
  intros Hneg. apply fthr_band_1. lra.
Qed.

Lemma calculate_fthr_total_witness : calculate_fthr (-3) = 0.95.
Proof.
  destruct (calculate_fthr_total (-3)) as (_ & _ & H).
  apply H. lra.
Defined.

(** ** Sums *)

Section Sums.
Context {A : Type}.
Implicit Types (f g : A -> Q) (l k : list A).

Lemma Qsum_ext f g l :
  Forall (fun x => f x == g x) l -> Qsum f l == Qsum g l.
Proof.
  induction 1 as [|x l Hx _ IH]; simpl; [reflexivity|].
  now rewrite Hx, IH.
Qed.

Lemma Qsum_app f l k : Qsum f (l ++ k) == Qsum f l + Qsum f k.
Proof.
  induction l as [|x l IH]; simpl; [ring|]. rewrite IH. ring.
Qed.

Lemma Qsum_plus f g l :
  Qsum (fun x => f x + g x) l == Qsum f l + Qsum g l.
Proof.
  induction l as [|x l IH]; simpl; [ring|]. rewrite IH. ring.
Qed.

Lemma Qsum_scal c f l : Qsum (fun x => c * f x) l == c * Qsum f l.
Proof.
  induction l as [|x l IH]; simpl; [ring|]. rewrite IH. ring.
Qed.

Lemma Qsum_scal_r c f l : Qsum (fun x => f x * c) l == Qsum f l * c.
Proof.
  induction l as [|x l IH]; simpl; [ring|]. rewrite IH. ring.
Qed.

Lemma Qsum_nonneg f l : Forall (fun x => 0 <= f x) l -> 0 <= Qsum f l.
Proof.
  induction 1 as [|x l Hx _ IH]; simpl; lra.
Qed.

Lemma Qsum_le f g l :
  Forall (fun x => f x <= g x) l -> Qsum f l <= Qsum g l.
Proof.
  induction 1 as [|x l Hx _ IH]; simpl; lra.
Qed.

Lemma len_cons (x : A) l : len (x :: l) == 1 + len l.
Proof.
  unfold len. cbn [length]. rewrite Nat2Z.inj_succ, <- Z.add_1_l.
  now rewrite inject_Z_plus.
Qed.

Lemma len_nonneg l : 0 <= len l.
Proof.
  unfold len. change 0 with (inject_Z 0). rewrite <- Zle_Qle. lia.
Qed.

Lemma len_pos l : l <> [] -> 0 < len l.
Proof.
  destruct l as [|x l]; [congruence|]. intros _.
  rewrite len_cons. pose proof (len_nonneg l). lra.
Qed.

Lemma Qsum_const c l : Qsum (fun _ => c) l == c * len l.
Proof.
  induction l as [|x l IH]; simpl.
  - unfold len. simpl. ring.
  - rewrite IH, len_cons. ring.
Qed.

Lemma Qsum_map {B} (h : B -> A) f (lb : list B) :
  Qsum f (map h lb) = Qsum (fun b => f (h b)) lb.
Proof.
  induction lb as [|b lb IH]; simpl; [reflexivity|]. now rewrite IH.
Qed.

End Sums.

Lemma Qsum_swap {A B} (f : A -> B -> Q) (la : list A) (lb : list B) :
  Qsum (fun a => Qsum (f a) lb) la == Qsum (fun b => Qsum (fun a => f a b) la) lb.
Proof.
  induction la as [|a la IH]; simpl.
  - symmetry. rewrite (Qsum_const 0 lb). ring.
  - rewrite IH. symmetry. apply Qsum_plus.
Qed.

Lemma Qsum_pairs (f : Z * Z -> Q) (cs ds : list Z) :
  Qsum f (pairs cs ds) == Qsum (fun i => Qsum (fun j => f (i, j)) ds) cs.
Proof.
  unfold pairs. induction cs as [|c cs IH]; simpl; [reflexivity|].
  rewrite Qsum_app, IH, Qsum_map. reflexivity.
Qed.

(** [eval] of the term lists the model builder produces. *)
Lemma eval_app v (e1 e2 : LpAffineExpression) :
  eval v (e1 ++ e2) == eval v e1 + eval v e2.
Proof. apply Qsum_app. Qed.

Lemma eval_map {A} v (c : A -> Q) (x : A -> LpVariable) (l : list A) :
  eval v (map (fun a => (c a, x a)) l) = Qsum (fun a => c a * v (x a)) l.
Proof. unfold eval. now rewrite Qsum_map. Qed.

(** ** The error monad on lists *)

Lemma bind_Ok {A B} (a : A) (f : A -> result B) : (Ok a ≫= f) = f a.
Proof. reflexivity. Qed.

Lemma bind_Raise {A B} e (f : A -> result B) : (Raise e ≫= f) = Raise e.
Proof. reflexivity. Qed.

Lemma mapM_Ok {A B} (f : A -> result B) (g : A -> B) (l : list A) :
  Forall (fun x => f x = Ok (g x)) l -> mapM f l = Ok (map g l).
Proof.
  induction 1 as [|x l Hx _ IH]; [reflexivity|].
  cbn [mapM map]. rewrite Hx, IH. reflexivity.
Qed.

Lemma sum_from_Ok {A} (f : A -> result Q) (g : A -> Q) (l : list A) acc :
  Forall (fun x => f x = Ok (g x)) l ->
  exists q, sum_from acc f l = Ok q /\ q == acc + Qsum g l.
Proof.
  intros H. revert acc.
  induction H as [|x l Hx _ IH]; intros acc; simpl.
  - exists acc. split; [reflexivity | ring].
  - rewrite Hx. destruct (IH (acc + g x)) as (q & Hq & Heq).
    exists q. split; [exact Hq|]. rewrite Heq. ring.
Qed.

Lemma py_sum_Ok {A} (f : A -> result Q) (g : A -> Q) (l : list A) :
  Forall (fun x => f x = Ok (g x)) l ->
  exists q, py_sum f l = Ok q /\ q == Qsum g l.
Proof.
  intros H. destruct (sum_from_Ok f g l 0 H) as (q & Hq & Heq).
  exists q. split; [exact Hq|]. rewrite Heq. ring.
Qed.

(** A sum that raises: the first element on which [f] raises decides. *)
Lemma sum_from_Raise {A} (f : A -> result Q) (l1 l2 : list A) x e acc :
  Forall (fun y => exists q, f y = Ok q) l1 ->
  f x = Raise e ->
  sum_from acc f (l1 ++ x :: l2) = Raise e.
Proof.
  intros H Hx. revert acc.
  induction H as [|y l1 [q Hy] _ IH]; intros acc; simpl.
  - now rewrite Hx.
  - rewrite Hy. apply IH.
Qed.

(** ** Dictionaries built from rows *)

Lemma unique_acc_elem_of (l acc : list Z) x :
  x ∈ foldl (fun acc x => if decide (x ∈ acc) then acc else acc ++ [x]) acc l
  <-> x ∈ acc \/ x ∈ l.
Proof.
  revert acc. induction l as [|y l IH]; intros acc; simpl.
  - rewrite elem_of_nil. tauto.
  - rewrite IH, elem_of_cons. destruct (decide (y ∈ acc)) as [Hy|Hy].
    + split; [tauto|]. intros [?|[->|?]]; tauto.
    + rewrite elem_of_app, list_elem_of_singleton. tauto.
Qed.

Lemma elem_of_unique (l : list Z) x : x ∈ unique l <-> x ∈ l.
Proof.
  unfold unique. rewrite unique_acc_elem_of, elem_of_nil. tauto.
Qed.

Lemma unique_acc_NoDup (l acc : list Z) :
  NoDup acc ->
  NoDup (foldl (fun acc x => if decide (x ∈ acc) then acc else acc ++ [x]) acc l).
Proof.
  revert acc. induction l as [|y l IH]; intros acc Hacc; simpl; [exact Hacc|].
  apply IH. destruct (decide (y ∈ acc)) as [Hy|Hy]; [exact Hacc|].
  apply NoDup_app. split; [exact Hacc|]. split.
  - intros z Hz Hz'. apply list_elem_of_singleton in Hz'. now subst.
  - apply NoDup_singleton.
Qed.

Lemma unique_NoDup (l : list Z) : NoDup (unique l).
Proof. apply unique_acc_NoDup, NoDup_nil_2. Qed.

Section DictOf.
Context {R K V : Type} `{Countable K}.
Implicit Types (key : R -> K) (val : R -> V) (rows : list R).

Lemma dict_of_snoc (kvs : list (K * V)) kv :
  dict_of (kvs ++ [kv]) = <[kv.1 := kv.2]> (dict_of kvs).
Proof. unfold dict_of. now rewrite foldl_snoc. Qed.

(** The value under a key is the one of the last row with that key. *)
Lemma dict_of_lookup key val rows k :
  dict_of (map (fun r => (key r, val r)) rows) !! k
  = val <$> last (filter (fun r => key r = k) rows).
Proof.
  induction rows as [|r rows IH] using rev_ind; [reflexivity|].
  rewrite map_app. cbn [map]. rewrite dict_of_snoc, filter_app. cbn [fst snd].
  destruct (decide (key r = k)) as [Hk|Hk].
  - rewrite filter_cons_True, filter_nil by exact Hk.
    rewrite last_snoc. subst k. now rewrite lookup_insert_eq.
  - rewrite filter_cons_False, filter_nil by exact Hk.
    rewrite app_nil_r, lookup_insert_ne by exact Hk. exact IH.
Qed.

Lemma dict_of_is_Some key val rows k :
  k ∈ map key rows -> is_Some (dict_of (map (fun r => (key r, val r)) rows) !! k).
Proof.
  intros Hk. rewrite dict_of_lookup.
  apply list_elem_of_In, in_map_iff in Hk as (r & Hr & Hin).
  apply fmap_is_Some, last_is_Some.
  intros Hnil. apply list_elem_of_In in Hin.
  exact (filter_nil_not_elem_of (fun r => key r = k) rows r Hnil Hr Hin).
Qed.

Lemma dict_of_lookup_total `{Inhabited V} key val rows k :
  k ∈ map key rows ->
  dict_of (map (fun r => (key r, val r)) rows) !! k
  = Some (dict_of (map (fun r => (key r, val r)) rows) !!! k).
Proof.
  intros Hk. destruct (dict_of_is_Some key val rows k Hk) as [v Hv].
  now rewrite lookup_total_alt, Hv.
Qed.

End DictOf.

(** ** What [load] guarantees *)

Section Load.
Variable t : Tables.
Local Abbreviation pd := (load t).

Lemma load_demand i :
  i ∈ customers pd -> getitem (demand pd) i = Ok (demand pd !!! i).
Proof.
  intros Hi. unfold getitem. cbn [customers demand load] in *.
  rewrite elem_of_unique in Hi.
  now rewrite (dict_of_lookup_total de_customer_id de_demand).
Qed.

Lemma load_capacity j :
  j ∈ dcs pd -> getitem (capacity pd) j = Ok (capacity pd !!! j).
Proof.
  intros Hj. unfold getitem. cbn [dcs capacity load] in *.
  rewrite elem_of_unique in Hj.
  now rewrite (dict_of_lookup_total dr_dc_id dr_capacity).
Qed.

Lemma load_fixed_cost j :
  j ∈ dcs pd -> getitem (fixed_cost pd) j = Ok (fixed_cost pd !!! j).
Proof.
  intros Hj. unfold getitem. cbn [dcs fixed_cost load] in *.
  rewrite elem_of_unique in Hj.
  now rewrite (dict_of_lookup_total dr_dc_id dr_fixed_cost).
Qed.

(** The three edge dictionaries have the same keys, and the transport cost
    and the hit rate of an edge are computed from its distance. *)
Lemma load_edge ij d :
  distance pd !! ij = Some d ->
  transport_cost pd !! ij = Some (d * TRANSPORT_COST_PER_KM) /\
  fthr pd !! ij = Some (calculate_fthr d) /\
  exists r, r ∈ matrix_df t /\ mr_distance_km r = d.
Proof.
  cbn [distance transport_cost fthr load].
  rewrite !dict_of_lookup.
  destruct (last (filter (fun r => row_key r = ij) (matrix_df t))) as [r|] eqn:E;
    [|discriminate].
  cbn. intros [= <-]. repeat split.
  exists r. split; [|reflexivity].
  apply last_Some_elem_of, list_elem_of_filter in E. tauto.
Qed.

Lemma load_edge_total ij :
  is_Some (distance pd !! ij) ->
  getitem2 (distance pd) ij = Ok (distance pd !!! ij) /\
  getitem2 (transport_cost pd) ij = Ok (transport_cost pd !!! ij) /\
  getitem2 (fthr pd) ij = Ok (fthr pd !!! ij) /\
  transport_cost pd !!! ij = (distance pd !!! ij) * TRANSPORT_COST_PER_KM /\
  fthr pd !!! ij = calculate_fthr (distance pd !!! ij) /\
  exists r, r ∈ matrix_df t /\ mr_distance_km r = distance pd !!! ij.
Proof.
  intros [d Hd]. destruct (load_edge ij d Hd) as (Htc & Hf & Hr).
  unfold getitem2. rewrite !lookup_total_alt, Hd, Htc, Hf. cbn.
  repeat split; exact Hr.
Qed.

Lemma complete_matrix_spec ij :
  complete_matrix pd = true ->
  ij ∈ pairs (customers pd) (dcs pd) ->
  is_Some (distance pd !! ij).
Proof.
  unfold complete_matrix. rewrite forallb_forall. intros Hall Hin.
  apply list_elem_of_In in Hin. apply Hall in Hin.
  now apply bool_decide_eq_true in Hin.
Qed.

End Load.

(** ** The constraint set *)

Section Constraints.
Variable t : Tables.
Local Abbreviation pd := (load t).

Lemma capacity_constraint_load j :
  j ∈ dcs pd ->
  capacity_constraint pd j
  = Ok {| c_name := DC_Capacity j;
          c_lhs := map (fun i => (demand pd !!! i, assign i j)) (customers pd);
          c_sense := LpConstraintLE;
          c_rhs := [(capacity pd !!! j, open j)];
          c_const := 0 |}.
Proof.
  intros Hj. unfold capacity_constraint.
  rewrite (mapM_Ok _ (fun i => (demand pd !!! i, assign i j))).
  - rewrite bind_Ok, (load_capacity t j Hj). reflexivity.
  - apply Forall_forall. intros i Hi. now rewrite (load_demand t i Hi).
Qed.

Lemma constraints_basic_load :
  constraints_basic pd
  = Ok (map (assignment_constraint pd) (customers pd)
        ++ map (fun j =>
                  {| c_name := DC_Capacity j;
                     c_lhs := map (fun i => (demand pd !!! i, assign i j))
                                  (customers pd);
                     c_sense := LpConstraintLE;
                     c_rhs := [(capacity pd !!! j, open j)];
                     c_const := 0 |})
               (dcs pd)
        ++ map linking_constraint (pairs (customers pd) (dcs pd))).
Proof.
  unfold constraints_basic. erewrite mapM_Ok; [reflexivity|].
  apply Forall_forall. intros j Hj. now apply capacity_constraint_load.
Qed.

Lemma constraints_fthr_basic : constraints_fthr pd = constraints_basic pd.
Proof. reflexivity. Qed.

End Constraints.

Lemma satisfies_assignment pd v i :
  satisfies v (assignment_constraint pd i)
  <-> Qsum (fun j => v (assign i j)) (dcs pd) == 1.
Proof.
  unfold satisfies, assignment_constraint.
  cbn [c_sense c_lhs c_rhs c_const].
  rewrite (eval_map v (fun _ => 1) (assign i)).
  rewrite (Qsum_scal 1). unfold eval. cbn. split; intros H; lra.
Qed.

Lemma satisfies_linking v ij :
  satisfies v (linking_constraint ij) <-> v (assign ij.1 ij.2) <= v (open ij.2).
Proof.
  unfold satisfies, linking_constraint, eval. cbn. split; intros H; lra.
Qed.

Lemma Forall_pairs (P : Z * Z -> Prop) cs ds :
  Forall P (pairs cs ds) <-> Forall (fun i => Forall (fun j => P (i, j)) ds) cs.
Proof.
  unfold pairs. rewrite Forall_flat_map. apply Forall_iff. intros i.
  apply List.Forall_map.
Qed.

(** What the constraint list of [load t] says about a valuation. *)
Lemma constraints_meaning (t : Tables) (v : LpVariable -> Q) :
  Forall (satisfies v)
         (map (assignment_constraint (load t)) (customers (load t))
          ++ map (fun j =>
                    {| c_name := DC_Capacity j;
                       c_lhs := map (fun i => (demand (load t) !!! i, assign i j))
                                    (customers (load t));
                       c_sense := LpConstraintLE;
                       c_rhs := [(capacity (load t) !!! j, open j)];
                       c_const := 0 |})
                 (dcs (load t))
          ++ map linking_constraint (pairs (customers (load t)) (dcs (load t))))
  <-> single_assignment (load t) v /\
      capacity_respected (load t) v /\
      linked (load t) v.
Proof.
  rewrite !Forall_app.
  unfold single_assignment, capacity_respected, linked.
  rewrite !List.Forall_map, Forall_pairs.
  assert (H1 : Forall (fun i => satisfies v (assignment_constraint (load t) i))
                      (customers (load t))
               <-> single_assignment (load t) v).
  { apply Forall_iff. intros i. apply satisfies_assignment. }
  assert (H3 : Forall (fun i => Forall (fun j => satisfies v (linking_constraint (i, j)))
                                       (dcs (load t)))
                      (customers (load t))
               <-> linked (load t) v).
  { apply Forall_iff. intros i. apply Forall_iff. intros j.
    apply (satisfies_linking v (i, j)). }
  unfold single_assignment, linked in H1, H3. rewrite H1, H3.
  match goal with
  | |- _ /\ ?L /\ _ <-> _ /\ ?R /\ _ => assert (H2 : L <-> R)
  end.
  { apply Forall_iff. intros j. unfold satisfies.
    cbn [c_sense c_lhs c_rhs c_const].
    rewrite eval_map. unfold eval. cbn. split; intros H; lra. }
  rewrite H2. reflexivity.
Qed.

(** C1.  The Basic and the FTHR model are built over the same binary
    variables and impose exactly the same constraints, which say: (1) for
    every customer the sum of [assign] over all DCs is exactly 1; (2) for
    every DC the sum of [demand * assign] over all customers is at most
    [capacity * open]; (3) for every pair, [assign <= open]. *)
Theorem same_constraint_families (t : Tables) :
  exists cs : list LpConstraint,
    constraints_basic (load t) = Ok cs /\
    constraints_fthr (load t) = Ok cs /\
    x_basic (load t) = x_fthr (load t) /\
    y_basic (load t) = y_fthr (load t) /\
    forall v : LpVariable -> Q,
      Forall (satisfies v) cs
      <-> single_assignment (load t) v /\
          capacity_respected (load t) v /\
          linked (load t) v.
Proof.
  eexists. split; [apply constraints_basic_load|].
  split; [apply constraints_basic_load|].
  split; [reflexivity|]. split; [reflexivity|].
  intros v. apply constraints_meaning.
Qed.

(** ** The objectives *)

Section Objectives.
Variable t : Tables.
Local Abbreviation pd := (load t).

Lemma fixed_cost_terms_load : fixed_cost_terms pd = Ok (fixed_terms_of pd).
Proof.
  unfold fixed_cost_terms, fixed_terms_of. apply mapM_Ok.
  apply Forall_forall. intros j Hj. now rewrite (load_fixed_cost t j Hj).
Qed.

Hypothesis Hcomplete : complete_matrix pd = true.

Lemma transport_cost_terms_load :
  transport_cost_terms pd = Ok (transport_terms_of pd).
Proof using Hcomplete.
  unfold transport_cost_terms, transport_terms_of. apply mapM_Ok.
  apply Forall_forall. intros ij Hij.
  destruct (load_edge_total t ij (complete_matrix_spec t ij Hcomplete Hij))
    as (_ & -> & _).
  reflexivity.
Qed.

Lemma redelivery_terms_load :
  redelivery_terms pd = Ok (redelivery_terms_of pd).
Proof using Hcomplete.
  unfold redelivery_terms, redelivery_terms_of. apply mapM_Ok.
  apply Forall_forall. intros ij Hij.
  destruct (load_edge_total t ij (complete_matrix_spec t ij Hcomplete Hij))
    as (_ & -> & -> & _).
  reflexivity.
Qed.

Lemma objective_basic_load :
  objective_basic pd = Ok (fixed_terms_of pd ++ transport_terms_of pd).
Proof using Hcomplete.
  unfold objective_basic.
  now rewrite fixed_cost_terms_load, bind_Ok, transport_cost_terms_load.
Qed.

Lemma objective_fthr_load :
  objective_fthr pd
  = Ok (fixed_terms_of pd ++ transport_terms_of pd ++ redelivery_terms_of pd).
Proof using Hcomplete.
  unfold objective_fthr.
  now rewrite fixed_cost_terms_load, bind_Ok, transport_cost_terms_load, bind_Ok,
    redelivery_terms_load.
Qed.

(** With a complete matrix both models are built, over the same variables
    and constraints. *)
Lemma models_load :
  exists cs,
    constraints_basic pd = Ok cs /\
    model_basic pd
    = Ok {| name := Basic; variables := x_basic pd ++ y_basic pd;
            objective := fixed_terms_of pd ++ transport_terms_of pd;
            constraints := cs |} /\
    model_fthr pd
    = Ok {| name := FTHR; variables := x_basic pd ++ y_basic pd;
            objective := fixed_terms_of pd ++ transport_terms_of pd
                         ++ redelivery_terms_of pd;
            constraints := cs |}.
Proof using Hcomplete.
  eexists. split; [apply constraints_basic_load|].
  unfold model_basic, model_fthr.
  rewrite objective_basic_load, objective_fthr_load, !bind_Ok.
  change (constraints_fthr (load t)) with (constraints_basic (load t)).
  rewrite constraints_basic_load. split; reflexivity.
Qed.

Lemma eval_redelivery v :
  eval v (redelivery_terms_of pd) = redelivery_term pd v.
Proof. unfold redelivery_terms_of, redelivery_term. apply eval_map. Qed.

(** Non-negative distances make every edge's transport cost non-negative. *)
Lemma transport_cost_nonneg ij :
  Forall (fun r => 0 <= mr_distance_km r) (matrix_df t) ->
  ij ∈ pairs (customers pd) (dcs pd) ->
  0 <= transport_cost pd !!! ij.
Proof using Hcomplete.
  intros Hdist Hij.
  destruct (load_edge_total t ij (complete_matrix_spec t ij Hcomplete Hij))
    as (_ & _ & _ & -> & _ & r & Hr & <-).
  rewrite Forall_forall in Hdist. specialize (Hdist r Hr).
  unfold TRANSPORT_COST_PER_KM. lra.
Qed.

Lemma fthr_entry_le_1 ij :
  ij ∈ pairs (customers pd) (dcs pd) -> fthr pd !!! ij <= 1.
Proof using Hcomplete.
  intros Hij.
  destruct (load_edge_total t ij (complete_matrix_spec t ij Hcomplete Hij))
    as (_ & _ & _ & _ & -> & _).
  apply fthr_le_1.
Qed.

Lemma redelivery_term_nonneg v :
  Forall (fun r => 0 <= mr_distance_km r) (matrix_df t) ->
  binary (x_basic pd) v ->
  0 <= redelivery_term pd v.
Proof using Hcomplete.
  intros Hdist Hbin. unfold redelivery_term. apply Qsum_nonneg.
  apply Forall_forall. intros ij Hij.
  pose proof (transport_cost_nonneg ij Hdist Hij) as Htc.
  pose proof (fthr_entry_le_1 ij Hij) as Hf.
  unfold binary, x_basic in Hbin. rewrite List.Forall_map, Forall_forall in Hbin.
  specialize (Hbin ij Hij).
  assert (Hv : 0 <= v (assign ij.1 ij.2)) by (destruct Hbin as [Hb|Hb]; lra).
  apply Qmult_le_0_compat; [apply Qmult_le_0_compat|]; lra.
Qed.

End Objectives.

(** [pulp.value] of an expression whose variables all have a value. *)
Lemma value_from_eval (v : LpVariable -> Q) (e : LpAffineExpression) (s : Q) :
  exists q, value_from s e (fun x => Some (v x)) = Some q /\ q == s + eval v e.
Proof.
  revert s. induction e as [|[a x] e IH]; intros s; cbn [value_from].
  - exists s. split; [reflexivity|]. unfold eval. cbn. ring.
  - destruct (IH (s + v x * a)) as (q & Hq & Heq).
    exists q. split; [exact Hq|]. rewrite Heq. unfold eval. cbn. ring.
Qed.

Lemma value_eval (v : LpVariable -> Q) (e : LpAffineExpression) :
  exists q, value e (fun x => Some (v x)) = Some q /\ q == eval v e.
Proof.
  destruct (value_from_eval v e 0) as (q & Hq & Heq).
  exists q. split; [exact Hq|]. rewrite Heq. ring.
Qed.

(** A solution feasible for one model is feasible for the other. *)
Lemma feasible_same_constraints (m1 m2 : LpProblem) v :
  variables m1 = variables m2 ->
  constraints m1 = constraints m2 ->
  feasible m1 v -> feasible m2 v.
Proof. unfold feasible. intros -> ->. tauto. Qed.

Lemma binary_app_l xs ys v : binary (xs ++ ys) v -> binary xs v.
Proof. unfold binary. rewrite Forall_app. tauto. Qed.

(** C2.  Over the same data (complete matrix, distances [>= 0]) both
    models are built and, for every assignment of values to the decision
    variables, the FTHR objective is the Basic objective plus the sum over
    all pairs of [transport_cost * (1 - reliability) * assign], also as
    [pulp.value] computes the two objectives; every reliability is at most
    1 and every transport cost is non-negative, so on 0/1 values that sum
    is non-negative; hence the optimal FTHR cost is at least the optimal
    Basic cost. *)
Theorem fthr_objective_dominates (t : Tables) :
  complete_matrix (load t) = true ->
  Forall (fun r => 0 <= mr_distance_km r) (matrix_df t) ->
  exists mb mf : LpProblem,
    model_basic (load t) = Ok mb /\
    model_fthr (load t) = Ok mf /\
    (forall v, eval v (objective mf)
               == eval v (objective mb) + redelivery_term (load t) v) /\
    (forall v, exists cb cf,
        value (objective mb) (fun x => Some (v x)) = Some cb /\
        value (objective mf) (fun x => Some (v x)) = Some cf /\
        cf == cb + redelivery_term (load t) v) /\
    Forall (fun ij => fthr (load t) !!! ij <= 1 /\
                      0 <= transport_cost (load t) !!! ij)
           (pairs (customers (load t)) (dcs (load t))) /\
    (forall v, binary (variables mf) v -> 0 <= redelivery_term (load t) v) /\
    (forall vb vf, optimal mb vb -> optimal mf vf ->
                   eval vb (objective mb) <= eval vf (objective mf)).
Proof.
  intros Hcomplete Hdist.
  destruct (models_load t Hcomplete) as (cs & _ & Hb & Hf).
  eexists. eexists. split; [exact Hb|]. split; [exact Hf|].
  cbn [objective variables].
  assert (Heq : forall v,
             eval v (fixed_terms_of (load t) ++ transport_terms_of (load t)
                     ++ redelivery_terms_of (load t))
             == eval v (fixed_terms_of (load t) ++ transport_terms_of (load t))
                + redelivery_term (load t) v).
  { intros v. rewrite !eval_app, eval_redelivery. ring. }
  assert (Hnn : forall v,
             binary (x_basic (load t) ++ y_basic (load t)) v ->
             0 <= redelivery_term (load t) v).
  { intros v Hbin. apply (redelivery_term_nonneg t Hcomplete v Hdist).
    now apply binary_app_l in Hbin. }
  split; [exact Heq|]. split.
  { intros v.
    destruct (value_eval v (fixed_terms_of (load t) ++ transport_terms_of (load t)))
      as (cb & Hcb & Ecb).
    destruct (value_eval v (fixed_terms_of (load t) ++ transport_terms_of (load t)
                            ++ redelivery_terms_of (load t)))
      as (cf & Hcf & Ecf).
    exists cb, cf. split; [exact Hcb|]. split; [exact Hcf|].
    now rewrite Ecf, Ecb, Heq. }
  split.
  { apply Forall_forall. intros ij Hij. split.
    - now apply fthr_entry_le_1.
    - now apply transport_cost_nonneg. }
  split; [exact Hnn|].
  intros vb vf [_ Hmin] [Hfeas _].
  rewrite (Heq vf).
  assert (Hfb : feasible
                  {| name := Basic;
                     variables := x_basic (load t) ++ y_basic (load t);
                     objective := fixed_terms_of (load t) ++ transport_terms_of (load t);
                     constraints := cs |} vf).
  { revert Hfeas. now apply feasible_same_constraints. }
  specialize (Hmin vf Hfb). cbn [objective] in Hmin.
  pose proof (Hnn vf (proj1 Hfeas)) as Hextra. cbn [variables] in Hextra.
  lra.
Qed.

Lemma fthr_objective_dominates_witness :
  exists mb mf : LpProblem,
    model_basic (load scenario_A) = Ok mb /\
    model_fthr (load scenario_A) = Ok mf /\
    (forall v, eval v (objective mf)
               == eval v (objective mb) + redelivery_term (load scenario_A) v) /\
    (forall v, exists cb cf,
        value (objective mb) (fun x => Some (v x)) = Some cb /\
        value (objective mf) (fun x => Some (v x)) = Some cf /\
        cf == cb + redelivery_term (load scenario_A) v) /\
    Forall (fun ij => fthr (load scenario_A) !!! ij <= 1 /\
                      0 <= transport_cost (load scenario_A) !!! ij)
           (pairs (customers (load scenario_A)) (dcs (load scenario_A))) /\
    (forall v, binary (variables mf) v -> 0 <= redelivery_term (load scenario_A) v) /\
    (forall vb vf, optimal mb vb -> optimal mf vf ->
                   eval vb (objective mb) <= eval vf (objective mf)).
Proof.
  apply (fthr_objective_dominates scenario_A).
  - vm_compute. reflexivity.
  - repeat constructor; cbn; lra.
Defined.

(** ** Scenario B: every distance is 12 km *)

Section TwelveKm.
Variable t : Tables.
Local Abbreviation pd := (load t).
Hypothesis Hcomplete : complete_matrix pd = true.
Hypothesis Hdist : Forall (fun r => mr_distance_km r == 12) (matrix_df t).



End TwelveKm.



(** ** Metrics *)

(** The first customer without an entry in the assignment ends the metrics
    with [KeyError]. *)
Lemma metrics_basic_unassigned pd asg l1 i l2 :
  customers pd = l1 ++ i :: l2 ->
  Forall (fun i' => exists q, at_assigned (distance pd) asg i' = Ok q) l1 ->
  asg !! i = None ->
  metrics_basic pd asg = Raise (KeyError (KId i)).
Proof.
  intros Hcs Hl1 Hi. unfold metrics_basic, py_sum. rewrite Hcs.
  rewrite (sum_from_Raise _ l1 l2 i (KeyError (KId i)) 0 Hl1); [reflexivity|].
  unfold at_assigned, getassigned. now rewrite Hi.
Qed.

Lemma pydiv_Ok a b : ~ b == 0 -> pydiv a b = Ok (a / b).
Proof.
  intros Hb. unfold pydiv. destruct (Qeq_bool b 0) eqn:E; [|reflexivity].
  apply Qeq_bool_iff in E. contradiction.
Qed.

Lemma pydiv_zero a b : b == 0 -> pydiv a b = Raise ZeroDivisionError.
Proof.
  intros Hb. unfold pydiv. apply Qeq_bool_iff in Hb. now rewrite Hb.
Qed.

Lemma len_neq_0 {A} (l : list A) : l <> [] -> ~ len l == 0.
Proof. intros Hl Hz. pose proof (len_pos l Hl). lra. Qed.

Section Metrics.
Variable t : Tables.
Local Abbreviation pd := (load t).
Variable asg : gmap Z Z.
Variable a : Z -> Z.
Hypothesis Htotal :
  Forall (fun i => asg !! i = Some (a i) /\ is_Some (distance pd !! (i, a i)))
         (customers pd).

Lemma at_assigned_distance :
  Forall (fun i => at_assigned (distance pd) asg i = Ok (distance pd !!! (i, a i)))
         (customers pd).
Proof using Htotal.
  eapply Forall_impl; [exact Htotal|]. cbv beta. intros i [Hi He].
  unfold at_assigned, getassigned. rewrite Hi, bind_Ok. cbv beta.
  now destruct (load_edge_total t _ He) as (-> & _).
Qed.

Lemma at_assigned_fthr :
  Forall (fun i => at_assigned (fthr pd) asg i = Ok (fthr pd !!! (i, a i)))
         (customers pd).
Proof using Htotal.
  eapply Forall_impl; [exact Htotal|]. cbv beta. intros i [Hi He].
  unfold at_assigned, getassigned. rewrite Hi, bind_Ok. cbv beta.
  now destruct (load_edge_total t _ He) as (_ & _ & -> & _).
Qed.

Lemma at_assigned_transport_cost :
  Forall (fun i => at_assigned (transport_cost pd) asg i
                   = Ok (transport_cost pd !!! (i, a i)))
         (customers pd).
Proof using Htotal.
  eapply Forall_impl; [exact Htotal|]. cbv beta. intros i [Hi He].
  unfold at_assigned, getassigned. rewrite Hi, bind_Ok. cbv beta.
  now destruct (load_edge_total t _ He) as (_ & -> & _).
Qed.

Lemma redelivery_summand :
  Forall (fun i =>
            (c ← at_assigned (transport_cost pd) asg i;
             f ← at_assigned (fthr pd) asg i;
             mret (c * (1 - f)))
            = Ok ((transport_cost pd !!! (i, a i)) * (1 - (fthr pd !!! (i, a i)))))
         (customers pd).
Proof using Htotal.
  pose proof at_assigned_transport_cost as Hc.
  pose proof at_assigned_fthr as Hf.
  rewrite Forall_forall in Hc, Hf. apply Forall_forall. intros i Hi.
  now rewrite (Hc i Hi), bind_Ok, (Hf i Hi), bind_Ok.
Qed.

End Metrics.

(** C6.  For a total assignment [a] of the customers (each customer [i]
    mapped to the one DC [a i], over an edge of the matrix) and a non-empty
    customer list, the metrics are computed and are: total distance, the
    sum over customers of the distance to the assigned DC; average
    distance, total distance divided by the customer count; average
    reliability, the mean of the reliability of the assigned edges; and,
    in the FTHR variant, expected redelivery cost, the sum over customers
    of transport cost times one minus reliability of the assigned edge. *)
Theorem metrics_formulas (t : Tables) (asg : gmap Z Z) (a : Z -> Z) :
  customers (load t) <> [] ->
  Forall (fun i => asg !! i = Some (a i) /\
                   is_Some (distance (load t) !! (i, a i)))
         (customers (load t)) ->
  exists td ad af er : Q,
    metrics_basic (load t) asg = Ok (td, ad, af) /\
    metrics_fthr (load t) asg = Ok (td, ad, af, er) /\
    td == Qsum (fun i => distance (load t) !!! (i, a i)) (customers (load t)) /\
    ad == td / len (customers (load t)) /\
    af == Qsum (fun i => fthr (load t) !!! (i, a i)) (customers (load t))
          / len (customers (load t)) /\
    er == Qsum (fun i => (transport_cost (load t) !!! (i, a i))
                         * (1 - (fthr (load t) !!! (i, a i))))
               (customers (load t)).
Proof.
  intros Hne Htotal.
  destruct (py_sum_Ok _ _ _ (at_assigned_distance t asg a Htotal))
    as (td & Htd & Etd).
  destruct (py_sum_Ok _ _ _ (at_assigned_fthr t asg a Htotal))
    as (sf & Hsf & Esf).
  destruct (py_sum_Ok _ _ _ (redelivery_summand t asg a Htotal))
    as (er & Her & Eer).
  pose proof (len_neq_0 _ Hne) as Hn.
  exists td, (td / len (customers (load t))),
         (sf / len (customers (load t))), er.
  split.
  { unfold metrics_basic.
    now rewrite Htd, bind_Ok, (pydiv_Ok _ _ Hn), bind_Ok, Hsf, bind_Ok,
      (pydiv_Ok _ _ Hn), bind_Ok. }
  split.
  { unfold metrics_fthr.
    now rewrite Htd, bind_Ok, (pydiv_Ok _ _ Hn), bind_Ok, Hsf, bind_Ok,
      (pydiv_Ok _ _ Hn), bind_Ok, Her, bind_Ok. }
  split; [exact Etd|]. split; [reflexivity|].
  split; [now rewrite Esf | exact Eer].
Qed.

Lemma metrics_formulas_witness :
  exists td ad af er : Q,
    metrics_basic (load scenario_A) asg_dc1 = Ok (td, ad, af) /\
    metrics_fthr (load scenario_A) asg_dc1 = Ok (td, ad, af, er) /\
    td == Qsum (fun i => distance (load scenario_A) !!! (i, 1%Z))
               (customers (load scenario_A)) /\
    ad == td / len (customers (load scenario_A)) /\
    af == Qsum (fun i => fthr (load scenario_A) !!! (i, 1%Z))
               (customers (load scenario_A))
          / len (customers (load scenario_A)) /\
    er == Qsum (fun i => (transport_cost (load scenario_A) !!! (i, 1%Z))
                         * (1 - (fthr (load scenario_A) !!! (i, 1%Z))))
               (customers (load scenario_A)).
Proof.
  apply (metrics_formulas scenario_A asg_dc1 (fun _ => 1%Z)).
  - intros H. vm_compute in H. discriminate H.
  - change (customers (load scenario_A)) with [1%Z; 2%Z; 3%Z].
    repeat constructor; vm_compute; eauto.
Defined.

Example metrics_scenario_A :
  metrics_fthr (load scenario_A) asg_dc1 = Ok (12, 12 # 3, 2850000 # 3000000, 9.000000).
Proof. vm_compute. reflexivity. Qed.

(** ** Extraction of the assignment *)

Lemma dict_of_pairs_lookup (kvs : list (Z * Z)) k :
  dict_of kvs !! k = snd <$> last (filter (fun kv => kv.1 = k) kvs).
Proof.
  rewrite <- (dict_of_lookup fst snd kvs k). f_equal. f_equal.
  induction kvs as [|[i j] kvs IH]; [reflexivity|]. cbn. now rewrite <- IH.
Qed.

Lemma last_map_pair (i : Z) (l : list Z) :
  snd <$> last (map (pair i) l) = last l.
Proof.
  induction l as [|j l IH] using rev_ind; [reflexivity|].
  rewrite map_app. cbn [map]. now rewrite !last_snoc.
Qed.

Section Extraction.
Variable P : Z * Z -> Prop.
Context `{!forall ij, Decision (P ij)}.

Lemma filter_row (c i : Z) (ds : list Z) :
  filter (fun kv => kv.1 = i) (filter P (map (pair c) ds))
  = if decide (c = i) then map (pair i) (filter (fun j => P (i, j)) ds) else [].
Proof.
  induction ds as [|j ds IH]; cbn [map].
  - now destruct (decide (c = i)).
  - rewrite !filter_cons.
    destruct (decide (c = i)) as [->|Hne].
    + destruct (decide (P (i, j))) as [HP|HP].
      * rewrite filter_cons_True by reflexivity. cbn [map]. now rewrite IH.
      * exact IH.
    + destruct (decide (P (c, j))) as [HP|HP]; [|exact IH].
      rewrite filter_cons_False by exact Hne. exact IH.
Qed.

(** The dict comprehension keeps, for a customer, the last DC of the list
    that passes the test. *)
Lemma comprehension_lookup (cs ds : list Z) (i : Z) :
  dict_of (filter P (pairs cs ds)) !! i
  = if decide (i ∈ cs) then last (filter (fun j => P (i, j)) ds) else None.
Proof.
  rewrite dict_of_pairs_lookup. unfold pairs.
  induction cs as [|c cs IH]; [reflexivity|].
  cbn [flat_map]. rewrite !filter_app, filter_row, last_app.
  destruct (last (filter (fun kv => kv.1 = i)
                         (filter P (flat_map (fun i0 => map (fun j => (i0, j)) ds) cs))))
    as [kv|] eqn:E.
  - cbn [fmap option_fmap option_map] in IH |- *.
    destruct (decide (i ∈ cs)) as [Hin|Hin]; [|discriminate IH].
    rewrite decide_True by (now apply list_elem_of_further). exact IH.
  - cbn [fmap option_fmap option_map] in IH.
    destruct (decide (c = i)) as [->|Hne].
    + rewrite decide_True by apply list_elem_of_here.
      apply last_map_pair.
    + cbn. destruct (decide (i ∈ cs)) as [Hin|Hin].
      * rewrite decide_True by (now apply list_elem_of_further). exact IH.
      * rewrite decide_False; [reflexivity|].
        rewrite elem_of_cons. intros [->|?]; [congruence | contradiction].
Qed.

End Extraction.

Lemma is_one_spec (o : option Q) :
  is_one o = true <-> exists q, o = Some q /\ q == 1.
Proof.
  destruct o as [q|]; cbn.
  - rewrite Qeq_bool_iff. split; [eauto|]. now intros (q' & [= <-] & Hq).
  - split; [discriminate|]. now intros (q & [=] & _).
Qed.

(** C8 (as the code has it).  Extraction does no rounding and gives no
    warning: customer [i] is mapped to a DC [j] only when the solved value
    of [assign i j] compares equal to 1; a customer with no such DC has no
    entry in the Assignment, and a customer with several such DCs is mapped
    to the last of them in the order of the DC list.  Both variants extract
    in the same way. *)
Theorem assignments_exact_last (pd : ProblemData) (sol : Solution) (i : Z) :
  basic_assignments pd sol !! i
  = (if decide (i ∈ customers pd)
     then last (filter (fun j => is_one (varValue sol (assign i j)) = true) (dcs pd))
     else None) /\
  fthr_assignments pd sol = basic_assignments pd sol /\
  (forall j, is_one (varValue sol (assign i j)) = true
             <-> exists q, varValue sol (assign i j) = Some q /\ q == 1).
Proof.
  split; [|split; [reflexivity | intros j; apply is_one_spec]].
  unfold basic_assignments.
  exact (comprehension_lookup
           (fun ij => is_one (varValue sol (assign ij.1 ij.2)) = true)
           (customers pd) (dcs pd) i).
Qed.

(** C8 fails as stated.  With every variable at 1, customer 1 of scenario A
    is given DC 2, the last one, where the specified rule gives DC 1, the
    lowest identifier, with a warning; with the values 0.9999999 customer 1
    gets no DC at all, where the specified rule snaps the value to 1 and
    gives DC 1. *)
Lemma extraction_not_as_specified :
  basic_assignments (load scenario_A) sol_all_one !! 1%Z = Some 2%Z /\
  spec_extract (load scenario_A) sol_all_one 1%Z = (Some 1%Z, true) /\
  basic_assignments (load scenario_A) sol_slack !! 1%Z = None /\
  spec_extract (load scenario_A) sol_slack 1%Z = (Some 1%Z, false).
Proof. vm_compute. repeat split; reflexivity. Qed.

(** ** The status is never consulted *)

(** C7 (as the code has it).  Whatever status the solver reports, Optimal
    or not, the Assignment is extracted from the solver's variable values
    and the metrics are computed from it exactly as for an Optimal solve;
    when that computation completes, the results carry the solver's status
    unchanged together with the extracted Assignment. *)
Theorem status_never_consulted
        (pd : ProblemData) (m : LpProblem) (st : LpStatus)
        (val : LpVariable -> option Q) :
  basic_assignments pd {| sol_status := st; varValue := val |}
  = basic_assignments pd {| sol_status := Optimal; varValue := val |} /\
  fthr_assignments pd {| sol_status := st; varValue := val |}
  = fthr_assignments pd {| sol_status := Optimal; varValue := val |} /\
  results_basic pd m {| sol_status := st; varValue := val |}
  = (r ← results_basic pd m {| sol_status := Optimal; varValue := val |};
     mret (with_status st r)) /\
  results_fthr pd m {| sol_status := st; varValue := val |}
  = (r ← results_fthr pd m {| sol_status := Optimal; varValue := val |};
     mret (with_status st r)) /\
  (forall r, results_basic pd m {| sol_status := st; varValue := val |} = Ok r ->
             r_status r = st /\
             r_assignments r
             = basic_assignments pd {| sol_status := st; varValue := val |}) /\
  (forall r, results_fthr pd m {| sol_status := st; varValue := val |} = Ok r ->
             r_status r = st /\
             r_assignments r
             = fthr_assignments pd {| sol_status := st; varValue := val |}).
Proof.
  split; [reflexivity|]. split; [reflexivity|].
  unfold results_basic, results_fthr.
  change (basic_assignments pd {| sol_status := st; varValue := val |})
    with (basic_assignments pd {| sol_status := Optimal; varValue := val |}).
  change (fthr_assignments pd {| sol_status := st; varValue := val |})
    with (fthr_assignments pd {| sol_status := Optimal; varValue := val |}).
  destruct (metrics_basic pd _) as [[[td ad] af]|e];
    destruct (metrics_fthr pd _) as [[[[td' ad'] af'] er]|e'];
    cbn; repeat match goal with |- _ /\ _ => split end;
    try reflexivity; intros r [= <-]; split; reflexivity.
Qed.

(** C7 fails as stated.  In scenario C the solver reports Infeasible and
    leaves every variable at 0; extraction is attempted all the same, no
    customer gets a DC, and the metrics raise [KeyError] on customer 1. *)
Lemma failed_solve_raises :
  exists m : LpProblem,
    model_basic (load scenario_C) = Ok m /\
    sol_status (solve_infeasible m) = Infeasible /\
    basic_assignments (load scenario_C) (solve_infeasible m) = ∅ /\
    results_basic (load scenario_C) m (solve_infeasible m)
    = Raise (KeyError (KId 1)).
Proof.
  eexists. split; [vm_compute; reflexivity|].
  split; [reflexivity|]. split; vm_compute; reflexivity.
Qed.

(** ** The script runs its two stages in sequence *)

Lemma stage_basic_cases pd solve :
  stage_basic pd solve
  = match model_basic pd with
    | Raise e => MkScript [] (Raise e)
    | Ok m =>
        match results_basic pd m (solve m) with
        | Raise e => MkScript [Solve Basic] (Raise e)
        | Ok r =>
            match r_total_cost r with
            | None =>
                MkScript [Solve Basic; PrintStatus Basic (r_status r)]
                         (Raise TypeError)
            | Some _ =>
                MkScript [Solve Basic; PrintStatus Basic (r_status r);
                          PrintMetrics Basic r] (Ok r)
            end
        end
    end.
Proof.
  unfold stage_basic, print_results.
  destruct (model_basic pd) as [m|e]; [|reflexivity]. cbn.
  destruct (results_basic pd m (solve m)) as [r|e]; [|reflexivity]. cbn.
  destruct (r_total_cost r); reflexivity.
Qed.

Lemma stage_fthr_cases pd solve :
  stage_fthr pd solve
  = match model_fthr pd with
    | Raise e => MkScript [] (Raise e)
    | Ok m =>
        match results_fthr pd m (solve m) with
        | Raise e => MkScript [Solve FTHR] (Raise e)
        | Ok r =>
            match r_total_cost r with
            | None =>
                MkScript [Solve FTHR; PrintStatus FTHR (r_status r)]
                         (Raise TypeError)
            | Some _ =>
                MkScript [Solve FTHR; PrintStatus FTHR (r_status r);
                          PrintMetrics FTHR r] (Ok r)
            end
        end
    end.
Proof.
  unfold stage_fthr, print_results.
  destruct (model_fthr pd) as [m|e]; [|reflexivity]. cbn.
  destruct (results_fthr pd m (solve m)) as [r|e]; [|reflexivity]. cbn.
  destruct (r_total_cost r); reflexivity.
Qed.

Lemma stage_basic_trace pd solve : Forall basic_event (trace (stage_basic pd solve)).
Proof.
  rewrite stage_basic_cases.
  destruct (model_basic pd) as [m|e]; [|constructor].
  destruct (results_basic pd m (solve m)) as [r|e];
    [destruct (r_total_cost r)|]; repeat constructor.
Qed.

Lemma script_bind_Raise {A B} (m : Script A) (f : A -> Script B) e :
  outcome m = Raise e -> m ≫= f = MkScript (trace m) (Raise e).
Proof. intros He. unfold mbind, Script_bind. now rewrite He. Qed.

Lemma script_bind_Ok {A B} (m : Script A) (f : A -> Script B) a :
  outcome m = Ok a -> m ≫= f = MkScript (trace m ++ trace (f a)) (outcome (f a)).
Proof. intros Ha. unfold mbind, Script_bind. now rewrite Ha. Qed.

Lemma script_basic_raises t solve e :
  outcome (stage_basic (load t) solve) = Raise e ->
  script t solve
  = MkScript (Loaded (length (customers (load t))) (length (dcs (load t)))
              :: trace (stage_basic (load t) solve))
             (Raise e).
Proof.
  intros He. unfold script.
  rewrite (script_bind_Raise (stage_basic (load t) solve) _ e He).
  reflexivity.
Qed.

Lemma script_basic_completes t solve rb :
  outcome (stage_basic (load t) solve) = Ok rb ->
  trace (script t solve)
  = Loaded (length (customers (load t))) (length (dcs (load t)))
    :: trace (stage_basic (load t) solve)
    ++ trace (rf ← stage_fthr (load t) solve;
              c ← lift (comparison rb rf);
              emit (PrintComparison c);;
              emit Exported).
Proof.
  intros Hb. unfold script.
  rewrite (script_bind_Ok (stage_basic (load t) solve) _ rb Hb).
  reflexivity.
Qed.

(** *** The Basic stage decides whether the FTHR stage runs *)

Lemma mapM_Ok_inv {A B} (f : A -> result B) (l : list A) (k : list B) :
  mapM f l = Ok k -> Forall (fun x => exists y, f x = Ok y) l.
Proof.
  revert k. induction l as [|x l IH]; intros k Hk; [constructor|].
  cbn [mapM] in Hk. destruct (f x) as [y|e] eqn:Ex; [|discriminate Hk].
  rewrite bind_Ok in Hk.
  destruct (mapM f l) as [k'|e] eqn:El; [|discriminate Hk].
  constructor; [eauto | eapply IH; reflexivity].
Qed.

Lemma load_same_keys (t : Tables) ij :
  is_Some (transport_cost (load t) !! ij) <-> is_Some (distance (load t) !! ij).
Proof.
  cbn [transport_cost distance load]. rewrite !dict_of_lookup.
  now rewrite !fmap_is_Some.
Qed.

Lemma model_basic_inv pd m :
  model_basic pd = Ok m ->
  exists o cs,
    objective_basic pd = Ok o /\ constraints_basic pd = Ok cs /\
    m = {| name := Basic; variables := x_basic pd ++ y_basic pd;
           objective := o; constraints := cs |}.
Proof.
  unfold model_basic. intros Hm.
  destruct (objective_basic pd) as [o|e]; [|discriminate Hm].
  destruct (constraints_basic pd) as [cs|e]; [|discriminate Hm].
  injection Hm as <-. eauto.
Qed.

Lemma model_fthr_inv pd m :
  model_fthr pd = Ok m ->
  exists o cs,
    objective_fthr pd = Ok o /\ constraints_fthr pd = Ok cs /\
    m = {| name := FTHR; variables := x_fthr pd ++ y_fthr pd;
           objective := o; constraints := cs |}.
Proof.
  unfold model_fthr. intros Hm.
  destruct (objective_fthr pd) as [o|e]; [|discriminate Hm].
  destruct (constraints_fthr pd) as [cs|e]; [|discriminate Hm].
  injection Hm as <-. eauto.
Qed.

Lemma transport_cost_terms_complete (t : Tables) tc :
  transport_cost_terms (load t) = Ok tc -> complete_matrix (load t) = true.
Proof.
  intros Htc. apply mapM_Ok_inv in Htc. rewrite Forall_forall in Htc.
  unfold complete_matrix. apply forallb_forall. intros ij Hij.
  apply bool_decide_eq_true, load_same_keys.
  apply list_elem_of_In in Hij. destruct (Htc ij Hij) as [y Hy].
  unfold getitem2 in Hy.
  destruct (transport_cost (load t) !! ij) as [c|]; [eauto | discriminate Hy].
Qed.

(** A Basic model that could be built makes the FTHR model buildable. *)
Lemma model_basic_complete (t : Tables) m :
  model_basic (load t) = Ok m -> complete_matrix (load t) = true.
Proof.
  intros Hm. apply model_basic_inv in Hm as (o & cs & Ho & _ & _).
  unfold objective_basic in Ho.
  destruct (fixed_cost_terms (load t)) as [fc|e]; [|discriminate Ho].
  rewrite bind_Ok in Ho.
  destruct (transport_cost_terms (load t)) as [tc|e] eqn:Etc; [|discriminate Ho].
  now apply (transport_cost_terms_complete t tc).
Qed.

Lemma model_fthr_complete (t : Tables) m :
  model_fthr (load t) = Ok m -> complete_matrix (load t) = true.
Proof.
  intros Hm. apply model_fthr_inv in Hm as (o & cs & Ho & _ & _).
  unfold objective_fthr in Ho.
  destruct (fixed_cost_terms (load t)) as [fc|e]; [|discriminate Ho].
  rewrite bind_Ok in Ho.
  destruct (transport_cost_terms (load t)) as [tc|e] eqn:Etc; [|discriminate Ho].
  now apply (transport_cost_terms_complete t tc).
Qed.

Lemma stage_basic_Ok_model pd solve rb :
  outcome (stage_basic pd solve) = Ok rb -> exists m, model_basic pd = Ok m.
Proof.
  rewrite stage_basic_cases.
  destruct (model_basic pd) as [m|e]; [eauto | discriminate].
Qed.

Lemma stage_fthr_solves (t : Tables) solve :
  complete_matrix (load t) = true ->
  exists evs, trace (stage_fthr (load t) solve) = Solve FTHR :: evs.
Proof.
  intros Hc. destruct (models_load t Hc) as (cs & _ & _ & Hf).
  rewrite stage_fthr_cases, Hf.
  match goal with |- context [results_fthr ?a ?b ?c] =>
    destruct (results_fthr a b c) as [r|e] end.
  - destruct (r_total_cost r); eauto.
  - eauto.
Qed.

(** *** Demand above capacity leaves no feasible solution *)

Lemma load_capacity_row (t : Tables) j :
  j ∈ dcs (load t) ->
  exists r, r ∈ dcs_df t /\ capacity (load t) !!! j = dr_capacity r.
Proof.
  intros Hj. pose proof (load_capacity t j Hj) as Hget.
  unfold getitem in Hget. cbn [capacity load] in Hget |- *.
  rewrite dict_of_lookup in Hget.
  destruct (last (filter (fun r => dr_dc_id r = j) (dcs_df t))) as [r|] eqn:E;
    [|discriminate Hget].
  cbn in Hget. injection Hget as Hget. exists r. split; [|now rewrite <- Hget].
  apply last_Some_elem_of, list_elem_of_filter in E. tauto.
Qed.

Lemma demand_within_capacity (t : Tables) (v : LpVariable -> Q) :
  Forall (fun r => 0 <= dr_capacity r) (dcs_df t) ->
  binary (y_basic (load t)) v ->
  single_assignment (load t) v ->
  capacity_respected (load t) v ->
  total_demand (load t) <= total_capacity (load t).
Proof.
  intros Hcap Hbin Hsingle Hload.
  unfold total_demand, total_capacity.
  (* every customer's demand is spread over the DCs *)
  rewrite (Qsum_ext _ (fun i => Qsum (fun j => (demand (load t) !!! i)
                                               * v (assign i j))
                                     (dcs (load t)))).
  2: { eapply Forall_impl; [exact Hsingle|]. cbv beta. intros i Hi.
       rewrite Qsum_scal, Hi. ring. }
  rewrite Qsum_swap.
  (* and the load of each DC is at most its capacity *)
  apply Qsum_le. apply Forall_forall. intros j Hj.
  unfold capacity_respected in Hload. rewrite Forall_forall in Hload.
  specialize (Hload j Hj). cbv beta in Hload.
  unfold binary, y_basic in Hbin.
  rewrite List.Forall_map, Forall_forall in Hbin. specialize (Hbin j Hj).
  destruct (load_capacity_row t j Hj) as (r & Hr & Hrow).
  rewrite Forall_forall in Hcap. specialize (Hcap r Hr). rewrite <- Hrow in Hcap.
  destruct Hbin as [Hy|Hy]; rewrite Hy in Hload; lra.
Qed.

Lemma binary_app_r xs ys v : binary (xs ++ ys) v -> binary ys v.
Proof. unfold binary. rewrite Forall_app. tauto. Qed.

Lemma infeasible_when_overloaded (t : Tables) (m : LpProblem) (v : LpVariable -> Q) :
  total_capacity (load t) < total_demand (load t) ->
  Forall (fun r => 0 <= dr_capacity r) (dcs_df t) ->
  model_basic (load t) = Ok m \/ model_fthr (load t) = Ok m ->
  ~ feasible m v.
Proof.
  intros Hover Hcap Hm [Hbin Hsat].
  assert (Hc : complete_matrix (load t) = true).
  { destruct Hm as [Hm|Hm];
      [eapply model_basic_complete | eapply model_fthr_complete]; exact Hm. }
  destruct (models_load t Hc) as (cs & Hcs & Hb & Hf).
  assert (Hvars : variables m = x_basic (load t) ++ y_basic (load t)
                  /\ constraints m = cs).
  { destruct Hm as [Hm|Hm];
      [rewrite Hm in Hb; injection Hb as -> | rewrite Hm in Hf; injection Hf as ->];
      now split. }
  destruct Hvars as [Hv Hc']. rewrite Hv in Hbin. rewrite Hc' in Hsat.
  rewrite constraints_basic_load in Hcs. injection Hcs as <-.
  apply constraints_meaning in Hsat as (Hsingle & Hload & _).
  pose proof (demand_within_capacity t v Hcap (binary_app_r _ _ _ Hbin)
                                     Hsingle Hload).
  lra.
Qed.

(** C9 (as the code has it).  The two variants are stages of one script
    that runs them in sequence, without isolation.  If the Basic stage
    raises, the script ends with that exception: the FTHR model is never
    solved and no comparison is printed.  If the Basic stage completes,
    its status and metrics stay printed and, whatever that status is, the
    FTHR model is solved next.  When total
    demand exceeds total capacity (capacities [>= 0]) neither model has a
    feasible 0/1 solution. *)
Theorem script_is_sequential (t : Tables) (solve : LpProblem -> Solution) :
  (forall e, outcome (stage_basic (load t) solve) = Raise e ->
     outcome (script t solve) = Raise e /\
     (Solve FTHR ∉ trace (script t solve)) /\
     forall c, PrintComparison c ∉ trace (script t solve)) /\
  (forall rb, outcome (stage_basic (load t) solve) = Ok rb ->
     PrintStatus Basic (r_status rb) ∈ trace (script t solve) /\
     PrintMetrics Basic rb ∈ trace (script t solve) /\
     Solve FTHR ∈ trace (script t solve)) /\
  (total_capacity (load t) < total_demand (load t) ->
   Forall (fun r => 0 <= dr_capacity r) (dcs_df t) ->
   forall m v, model_basic (load t) = Ok m \/ model_fthr (load t) = Ok m ->
               ~ feasible m v).
Proof.
  split; [|split].
  - intros e He. rewrite (script_basic_raises t solve e He). cbn [outcome trace].
    split; [reflexivity|].
    pose proof (stage_basic_trace (load t) solve) as Htr.
    rewrite Forall_forall in Htr.
    split; [|intros c]; rewrite elem_of_cons;
      (intros [Heq|Hin]; [discriminate Heq | exact (Htr _ Hin)]).
  - intros rb Hb. rewrite (script_basic_completes t solve rb Hb).
    assert (Hpr : PrintStatus Basic (r_status rb)
                  ∈ trace (stage_basic (load t) solve)
                  /\ PrintMetrics Basic rb ∈ trace (stage_basic (load t) solve)).
    { revert Hb. rewrite stage_basic_cases.
      destruct (model_basic (load t)) as [m|e]; [|discriminate].
      destruct (results_basic (load t) m (solve m)) as [r|e]; [|discriminate].
      destruct (r_total_cost r); [|discriminate].
      cbn [outcome trace]. intros [= <-]. set_solver. }
    destruct Hpr as [Hst Hme].
    split; [|split].
    + apply list_elem_of_further, elem_of_app. now left.
    + apply list_elem_of_further, elem_of_app. now left.
    + destruct (stage_basic_Ok_model _ _ _ Hb) as [m Hm].
      destruct (stage_fthr_solves t solve (model_basic_complete t m Hm))
        as [evs Hevs].
      apply list_elem_of_further, elem_of_app. right.
      destruct (outcome (stage_fthr (load t) solve)) as [rf|e] eqn:Ef.
      * rewrite (script_bind_Ok _ _ rf Ef). cbn [trace]. rewrite Hevs.
        apply list_elem_of_here.
      * rewrite (script_bind_Raise _ _ e Ef). cbn [trace]. rewrite Hevs.
        apply list_elem_of_here.
  - intros Hover Hcap m v Hm. now apply (infeasible_when_overloaded t m v).
Qed.

(** C9 fails as stated.  In scenario C total demand (35) exceeds total
    capacity (20); the solver reports Infeasible for the Basic model, the
    metrics of the Basic stage raise [KeyError], and the script ends there:
    the FTHR model is never solved and no comparison is printed. *)
Lemma infeasible_run_aborts :
  total_capacity (load scenario_C) < total_demand (load scenario_C) /\
  script scenario_C solve_infeasible
  = MkScript [Loaded 3 2; Solve Basic] (Raise (KeyError (KId 1))).
Proof. split; vm_compute; reflexivity. Qed.

Lemma script_is_sequential_witness :
  (Solve FTHR ∉ trace (script scenario_C solve_infeasible)) /\
  forall m v, model_basic (load scenario_C) = Ok m \/
              model_fthr (load scenario_C) = Ok m ->
              ~ feasible m v.
Proof.
  destruct (script_is_sequential scenario_C solve_infeasible) as (Ha & _ & Hc).
  split.
  - apply (Ha (KeyError (KId 1))). vm_compute. reflexivity.
  - apply Hc.
    + vm_compute. reflexivity.
    + repeat constructor; cbn; lra.
Defined.

(** ** The scenarios, run *)

(** Scenario A: serving everybody from DC 1 is optimal for the Basic model,
    at cost 100 + 60 * 3 = 280. *)
Example scenario_A_optimum :
  exists mb : LpProblem,
    model_basic (load scenario_A) = Ok mb /\
    optimal mb all_to_dc1 /\
    eval all_to_dc1 (objective mb) == 280.
Proof.
  eexists. split; [vm_compute; reflexivity|].
  split; [split|].
  - split; cbn [variables constraints]; unfold binary.
    + prove_Forall ltac:(cbn; (left; reflexivity) || (right; reflexivity)).
    + prove_Forall ltac:(unfold satisfies, eval; cbn; lra).
  - intros v' [Hbin Hsat]. cbn [variables constraints objective] in *.
    unfold binary in Hbin. split_Forall.
    unfold satisfies, eval in *. cbn in *. lra.
  - reflexivity.
Qed.


Example scenario_A_run :
  outcome (script scenario_A solve_to_dc1) = Ok tt /\
  exists rb rf c,
    trace (script scenario_A solve_to_dc1)
    = [Loaded 3 2; Solve Basic; PrintStatus Basic Optimal; PrintMetrics Basic rb;
       Solve FTHR; PrintStatus FTHR Optimal; PrintMetrics FTHR rf;
       PrintComparison c; Exported] /\
    r_total_cost rb = Some 280 /\
    r_opened_dcs rb = [1%Z] /\
    r_assignments rb = asg_dc1 /\
    r_avg_fthr rb == 0.95 /\
    r_expected_redelivery rf = Some 9.000000.
Proof.
  split; [vm_compute; reflexivity|].
  eexists. eexists. eexists. split; [vm_compute; reflexivity|].
  cbn [r_total_cost r_opened_dcs r_assignments r_avg_fthr r_expected_redelivery].
  repeat split; vm_compute; reflexivity.
Qed.

(** * Further properties of the script *)

(** ** Loading *)

Lemma unique_acc_fixed (l acc : list Z) :
  NoDup (acc ++ l) ->
  foldl (fun acc x => if decide (x ∈ acc) then acc else acc ++ [x]) acc l
  = acc ++ l.
Proof.
  revert acc. induction l as [|y l IH]; intros acc Hnd; simpl.
  - now rewrite app_nil_r.
  - assert (Hy : y ∉ acc).
    { apply NoDup_app in Hnd as (_ & Hdisj & _). intros Hin.
      apply (Hdisj y Hin). apply list_elem_of_here. }
    rewrite decide_False by exact Hy.
    rewrite (IH (acc ++ [y])); rewrite <- app_assoc; [reflexivity | exact Hnd].
Qed.

Lemma elem_of_map_iff {A} (f : A -> Z) (l : list A) (x : Z) :
  x ∈ map f l <-> exists r, r ∈ l /\ f r = x.
Proof.
  rewrite list_elem_of_In, in_map_iff. split.
  - intros (r & Hr & Hin). exists r. now rewrite list_elem_of_In.
  - intros (r & Hin & Hr). exists r. now rewrite <- list_elem_of_In.
Qed.

(** X1.  The customers and the DCs of the problem are the identifiers of the
    demand table and of the DC table, each listed once; when a table has
    no repeated identifier, they are its identifier column, in its order. *)
Theorem load_ids_distinct (t : Tables) :
  NoDup (customers (load t)) /\
  NoDup (dcs (load t)) /\
  (forall i, i ∈ customers (load t)
             <-> exists r, r ∈ demand_df t /\ de_customer_id r = i) /\
  (forall j, j ∈ dcs (load t) <-> exists r, r ∈ dcs_df t /\ dr_dc_id r = j) /\
  (NoDup (map de_customer_id (demand_df t)) ->
   customers (load t) = map de_customer_id (demand_df t)) /\
  (NoDup (map dr_dc_id (dcs_df t)) ->
   dcs (load t) = map dr_dc_id (dcs_df t)).
Proof.
  cbn [customers dcs load].
  split; [apply unique_NoDup|]. split; [apply unique_NoDup|].
  split; [intros i; rewrite elem_of_unique; apply elem_of_map_iff|].
  split; [intros j; rewrite elem_of_unique; apply elem_of_map_iff|].
  split; intros Hnd; unfold unique; now rewrite unique_acc_fixed.
Qed.

Lemma last_filter_None {A} (P : A -> Prop) `{!forall x, Decision (P x)} (l : list A) :
  last (filter P l) = None <-> forall x, x ∈ l -> ~ P x.
Proof.
  rewrite last_None. split.
  - intros Hnil x Hin HP. exact (filter_nil_not_elem_of P l x Hnil HP Hin).
  - intros Hall. induction l as [|x l IH]; [reflexivity|].
    rewrite filter_cons_False by (apply Hall, list_elem_of_here).
    apply IH. intros y Hy. apply Hall. now apply list_elem_of_further.
Qed.

(** X2.  Demand, capacity and fixed cost are defined exactly for the
    customers, respectively the DCs, of the problem; when an identifier has
    several rows, the values of its last row are the ones used. *)
Theorem load_last_row_wins (t : Tables) :
  (forall i,
      demand (load t) !! i
      = de_demand <$> last (filter (fun r => de_customer_id r = i) (demand_df t))) /\
  (forall j,
      capacity (load t) !! j
      = dr_capacity <$> last (filter (fun r => dr_dc_id r = j) (dcs_df t))) /\
  (forall j,
      fixed_cost (load t) !! j
      = dr_fixed_cost <$> last (filter (fun r => dr_dc_id r = j) (dcs_df t))) /\
  (forall i, is_Some (demand (load t) !! i) <-> i ∈ customers (load t)) /\
  (forall j, is_Some (capacity (load t) !! j) <-> j ∈ dcs (load t)) /\
  (forall j, is_Some (fixed_cost (load t) !! j) <-> j ∈ dcs (load t)).
Proof.
  assert (Hkeys : forall {R} (key : R -> Z) (val : R -> Q) (rows : list R) k,
             is_Some (dict_of (map (fun r => (key r, val r)) rows) !! k)
             <-> k ∈ unique (map key rows)).
  { intros R key val rows k. rewrite elem_of_unique. split.
    - rewrite dict_of_lookup, fmap_is_Some. intros [r Hr].
      apply last_Some_elem_of, list_elem_of_filter in Hr as [Hk Hin].
      apply elem_of_map_iff. eauto.
    - apply dict_of_is_Some. }
  cbn [demand capacity fixed_cost customers dcs load].
  split; [intros i; apply dict_of_lookup|].
  split; [intros j; apply dict_of_lookup|].
  split; [intros j; apply dict_of_lookup|].
  split; [intros i; apply Hkeys|].
  split; intros j; apply Hkeys.
Qed.

(** X3.  The distance, transport-cost and hit-rate dictionaries have the
    same keys, the pairs that have a row in the matrix; the entries of a
    pair come from its last row: the distance, the distance times 15, and
    [calculate_fthr] of the distance, which lies between 0.40 and 0.95. *)
Theorem load_edge_dictionaries_agree (t : Tables) (ij : Z * Z) :
  match last (filter (fun r => row_key r = ij) (matrix_df t)) with
  | None =>
      (forall r, r ∈ matrix_df t -> row_key r <> ij) /\
      distance (load t) !! ij = None /\
      transport_cost (load t) !! ij = None /\
      fthr (load t) !! ij = None
  | Some r =>
      r ∈ matrix_df t /\ row_key r = ij /\
      distance (load t) !! ij = Some (mr_distance_km r) /\
      transport_cost (load t) !! ij = Some (mr_distance_km r * 15) /\
      fthr (load t) !! ij = Some (calculate_fthr (mr_distance_km r)) /\
      0.40 <= calculate_fthr (mr_distance_km r) <= 0.95
  end.
Proof.
  cbn [distance transport_cost fthr load]. rewrite !dict_of_lookup.
  destruct (last (filter (fun r => row_key r = ij) (matrix_df t))) as [r|] eqn:E.
  - pose proof E as Hin.
    apply last_Some_elem_of, list_elem_of_filter in Hin as [Hk Hin].
    repeat split; try assumption; destruct (fthr_in_band (mr_distance_km r)); lra.
  - repeat split. intros r Hin Hk.
    exact (proj1 (last_filter_None _ _) E r Hin Hk).
Qed.

(** ** Building the models *)

Lemma mapM_Raise {A B} (f : A -> result B) (l1 l2 : list A) x e :
  Forall (fun y => exists z, f y = Ok z) l1 ->
  f x = Raise e ->
  mapM f (l1 ++ x :: l2) = Raise e.
Proof.
  intros H Hx. induction H as [|y l1 [z Hy] _ IH]; cbn [app mapM].
  - now rewrite Hx.
  - now rewrite Hy, bind_Ok, IH.
Qed.

Lemma forallb_first_false {A} (p : A -> bool) (l : list A) :
  forallb p l = false ->
  exists l1 x l2, l = l1 ++ x :: l2 /\ forallb p l1 = true /\ p x = false.
Proof.
  induction l as [|a l IH]; [discriminate|]. cbn [forallb].
  destruct (p a) eqn:Ea; cbn [andb].
  - intros Hl. destruct (IH Hl) as (l1 & x & l2 & -> & H1 & Hx).
    exists (a :: l1), x, l2. cbn [forallb]. rewrite Ea, H1. now repeat split.
  - intros _. exists [], a, l. now repeat split.
Qed.

Lemma transport_cost_terms_Raise (t : Tables) l1 ij l2 :
  pairs (customers (load t)) (dcs (load t)) = l1 ++ ij :: l2 ->
  Forall (fun ij' => is_Some (distance (load t) !! ij')) l1 ->
  distance (load t) !! ij = None ->
  transport_cost_terms (load t) = Raise (KeyError (KPair ij.1 ij.2)).
Proof.
  intros Hp Hl1 Hij. unfold transport_cost_terms. rewrite Hp.
  apply mapM_Raise.
  - eapply Forall_impl; [exact Hl1|]. cbv beta. intros ij' Hs.
    destruct (load_edge_total t ij' Hs) as (_ & -> & _). eauto.
  - unfold getitem2.
    destruct (transport_cost (load t) !! ij) as [c|] eqn:E; [|reflexivity].
    assert (Hs : is_Some (distance (load t) !! ij))
      by (apply load_same_keys; eauto).
    rewrite Hij in Hs. now destruct Hs.
Qed.

(** X4.  Both models are built exactly when every customer-DC pair has a row
    in the distance matrix.  Otherwise both builds raise [KeyError] on the
    same pair, the first pair without a row, and the script ends there,
    before any solve. *)
Theorem model_build_iff_complete (t : Tables) (solve : LpProblem -> Solution) :
  (complete_matrix (load t) = true <-> exists m, model_basic (load t) = Ok m) /\
  (complete_matrix (load t) = true <-> exists m, model_fthr (load t) = Ok m) /\
  (complete_matrix (load t) = false ->
   exists l1 i j l2,
     pairs (customers (load t)) (dcs (load t)) = l1 ++ (i, j) :: l2 /\
     Forall (fun ij => is_Some (distance (load t) !! ij)) l1 /\
     distance (load t) !! (i, j) = None /\
     model_basic (load t) = Raise (KeyError (KPair i j)) /\
     model_fthr (load t) = Raise (KeyError (KPair i j)) /\
     script t solve
     = MkScript [Loaded (length (customers (load t))) (length (dcs (load t)))]
                (Raise (KeyError (KPair i j)))).
Proof.
  split; [|split].
  - split.
    + intros Hc. destruct (models_load t Hc) as (cs & _ & Hb & _). eauto.
    + intros [m Hm]. now apply (model_basic_complete t m).
  - split.
    + intros Hc. destruct (models_load t Hc) as (cs & _ & _ & Hf). eauto.
    + intros [m Hm]. now apply (model_fthr_complete t m).
  - intros Hc. unfold complete_matrix in Hc.
    apply forallb_first_false in Hc as (l1 & [i j] & l2 & Hp & H1 & Hx).
    apply bool_decide_eq_false in Hx.
    assert (Hnone : distance (load t) !! (i, j) = None).
    { destruct (distance (load t) !! (i, j)) eqn:E; [|reflexivity].
      exfalso. apply Hx. eauto. }
    assert (Hl1 : Forall (fun ij => is_Some (distance (load t) !! ij)) l1).
    { apply Forall_forall. intros ij Hin.
      rewrite forallb_forall in H1. apply list_elem_of_In in Hin.
      exact (proj1 (bool_decide_eq_true _) (H1 ij Hin)). }
    pose proof (transport_cost_terms_Raise t l1 (i, j) l2 Hp Hl1 Hnone) as Htc.
    cbn [fst snd] in Htc.
    assert (Hb : model_basic (load t) = Raise (KeyError (KPair i j))).
    { unfold model_basic, objective_basic.
      now rewrite fixed_cost_terms_load, bind_Ok, Htc. }
    assert (Hf : model_fthr (load t) = Raise (KeyError (KPair i j))).
    { unfold model_fthr, objective_fthr.
      now rewrite fixed_cost_terms_load, bind_Ok, Htc. }
    exists l1, i, j, l2. repeat split; try assumption.
    rewrite (script_basic_raises t solve (KeyError (KPair i j))).
    + rewrite stage_basic_cases, Hb. reflexivity.
    + rewrite stage_basic_cases, Hb. reflexivity.
Qed.

Lemma model_build_iff_complete_witness :
  exists l1 i j l2,
    pairs (customers (load scenario_missing)) (dcs (load scenario_missing))
    = l1 ++ (i, j) :: l2 /\
    Forall (fun ij => is_Some (distance (load scenario_missing) !! ij)) l1 /\
    distance (load scenario_missing) !! (i, j) = None /\
    model_basic (load scenario_missing) = Raise (KeyError (KPair i j)) /\
    model_fthr (load scenario_missing) = Raise (KeyError (KPair i j)) /\
    script scenario_missing solve_to_dc1
    = MkScript [Loaded (length (customers (load scenario_missing)))
                       (length (dcs (load scenario_missing)))]
               (Raise (KeyError (KPair i j))).
Proof.
  apply (proj2 (proj2 (model_build_iff_complete scenario_missing solve_to_dc1))).
  vm_compute. reflexivity.
Defined.

Example scenario_missing_run :
  script scenario_missing solve_to_dc1
  = MkScript [Loaded 3 2] (Raise (KeyError (KPair 3 2))).
Proof. vm_compute. reflexivity. Qed.

(** ** When the metrics are computed and when they raise *)

Lemma sum_from_Ok_inv {A} (f : A -> result Q) (l : list A) acc q :
  sum_from acc f l = Ok q -> Forall (fun x => exists y, f x = Ok y) l.
Proof.
  revert acc. induction l as [|x l IH]; intros acc Hq; [constructor|].
  cbn [sum_from] in Hq. destruct (f x) as [y|e] eqn:Ex; [|discriminate Hq].
  constructor; [eauto | exact (IH _ Hq)].
Qed.

Lemma at_assigned_Ok_inv (d : gmap (Z * Z) Q) (asg : gmap Z Z) i q :
  at_assigned d asg i = Ok q -> exists j, asg !! i = Some j /\ d !! (i, j) = Some q.
Proof.
  unfold at_assigned, getassigned, getitem2.
  destruct (asg !! i) as [j|]; [|discriminate]. rewrite bind_Ok. cbv beta.
  destruct (d !! (i, j)) as [q'|] eqn:E; [|discriminate]. intros [= <-]. eauto.
Qed.

Lemma len_zero_nil {A} (l : list A) : len l == 0 -> l = [].
Proof.
  destruct l as [|x l]; [reflexivity|]. intros Hz.
  pose proof (len_pos (x :: l)) as Hpos. assert (x :: l <> []) by discriminate.
  specialize (Hpos H). lra.
Qed.

Lemma total_on_function (pd : ProblemData) (asg : gmap Z Z) :
  total_on pd asg ->
  Forall (fun i => asg !! i = Some (asg !!! i) /\
                   is_Some (distance pd !! (i, asg !!! i)))
         (customers pd).
Proof.
  unfold total_on. intros H. eapply Forall_impl; [exact H|]. cbv beta.
  intros i (j & Hj & He). rewrite lookup_total_alt, Hj. cbn. now split.
Qed.

(** The metrics of a total assignment, with the sums they are made of. *)
Lemma metrics_of_total (t : Tables) (asg : gmap Z Z) :
  customers (load t) <> [] ->
  total_on (load t) asg ->
  exists td sf er : Q,
    metrics_basic (load t) asg
    = Ok (td, td / len (customers (load t)), sf / len (customers (load t))) /\
    metrics_fthr (load t) asg
    = Ok (td, td / len (customers (load t)), sf / len (customers (load t)), er) /\
    td == Qsum (fun i => distance (load t) !!! (i, asg !!! i)) (customers (load t)) /\
    sf == Qsum (fun i => fthr (load t) !!! (i, asg !!! i)) (customers (load t)) /\
    er == Qsum (fun i => (transport_cost (load t) !!! (i, asg !!! i))
                         * (1 - (fthr (load t) !!! (i, asg !!! i))))
               (customers (load t)).
Proof.
  intros Hne Htot. apply total_on_function in Htot.
  destruct (py_sum_Ok _ _ _ (at_assigned_distance t asg _ Htot)) as (td & Htd & Etd).
  destruct (py_sum_Ok _ _ _ (at_assigned_fthr t asg _ Htot)) as (sf & Hsf & Esf).
  destruct (py_sum_Ok _ _ _ (redelivery_summand t asg _ Htot)) as (er & Her & Eer).
  pose proof (len_neq_0 _ Hne) as Hn.
  exists td, sf, er. split.
  { unfold metrics_basic.
    now rewrite Htd, bind_Ok, (pydiv_Ok _ _ Hn), bind_Ok, Hsf, bind_Ok,
      (pydiv_Ok _ _ Hn), bind_Ok. }
  split.
  { unfold metrics_fthr.
    now rewrite Htd, bind_Ok, (pydiv_Ok _ _ Hn), bind_Ok, Hsf, bind_Ok,
      (pydiv_Ok _ _ Hn), bind_Ok, Her, bind_Ok. }
  now repeat split.
Qed.

Lemma metrics_basic_Ok_inv (pd : ProblemData) (asg : gmap Z Z) x :
  metrics_basic pd asg = Ok x -> customers pd <> [] /\ total_on pd asg.
Proof.
  unfold metrics_basic, py_sum. intros Hm.
  destruct (sum_from 0 (at_assigned (distance pd) asg) (customers pd))
    as [td|e] eqn:Etd; [|discriminate Hm].
  rewrite bind_Ok in Hm. cbv beta in Hm.
  destruct (pydiv td (len (customers pd))) as [ad|e] eqn:Ead; [|discriminate Hm].
  split.
  - intros Hnil. rewrite Hnil in Ead. discriminate Ead.
  - apply sum_from_Ok_inv in Etd. unfold total_on.
    eapply Forall_impl; [exact Etd|]. cbv beta. intros i [q Hq].
    apply at_assigned_Ok_inv in Hq as (j & Hj & Hd). eauto.
Qed.

Lemma metrics_fthr_Ok_inv (pd : ProblemData) (asg : gmap Z Z) x :
  metrics_fthr pd asg = Ok x -> customers pd <> [] /\ total_on pd asg.
Proof.
  unfold metrics_fthr, py_sum. intros Hm.
  destruct (sum_from 0 (at_assigned (distance pd) asg) (customers pd))
    as [td|e] eqn:Etd; [|discriminate Hm].
  rewrite bind_Ok in Hm. cbv beta in Hm.
  destruct (pydiv td (len (customers pd))) as [ad|e] eqn:Ead; [|discriminate Hm].
  split.
  - intros Hnil. rewrite Hnil in Ead. discriminate Ead.
  - apply sum_from_Ok_inv in Etd. unfold total_on.
    eapply Forall_impl; [exact Etd|]. cbv beta. intros i [q Hq].
    apply at_assigned_Ok_inv in Hq as (j & Hj & Hd). eauto.
Qed.

Lemma metrics_fthr_unassigned pd asg l1 i l2 :
  customers pd = l1 ++ i :: l2 ->
  Forall (fun i' => exists q, at_assigned (distance pd) asg i' = Ok q) l1 ->
  asg !! i = None ->
  metrics_fthr pd asg = Raise (KeyError (KId i)).
Proof.
  intros Hcs Hl1 Hi. unfold metrics_fthr, py_sum. rewrite Hcs.
  rewrite (sum_from_Raise _ l1 l2 i (KeyError (KId i)) 0 Hl1); [reflexivity|].
  unfold at_assigned, getassigned. now rewrite Hi.
Qed.

(** X5.  The metrics of either variant are computed exactly when there is
    at least one customer and every customer has an entry in the
    Assignment, over an edge of the matrix.  With no customer they raise
    [ZeroDivisionError]; otherwise the first customer without an entry
    raises [KeyError] on that customer. *)
Theorem metrics_succeed_iff (t : Tables) (asg : gmap Z Z) :
  ((exists x, metrics_basic (load t) asg = Ok x)
   <-> customers (load t) <> [] /\ total_on (load t) asg) /\
  ((exists x, metrics_fthr (load t) asg = Ok x)
   <-> customers (load t) <> [] /\ total_on (load t) asg) /\
  (customers (load t) = [] ->
   metrics_basic (load t) asg = Raise ZeroDivisionError /\
   metrics_fthr (load t) asg = Raise ZeroDivisionError) /\
  (forall l1 i l2,
      customers (load t) = l1 ++ i :: l2 ->
      Forall (fun i' => exists j, asg !! i' = Some j /\
                                  is_Some (distance (load t) !! (i', j))) l1 ->
      asg !! i = None ->
      metrics_basic (load t) asg = Raise (KeyError (KId i)) /\
      metrics_fthr (load t) asg = Raise (KeyError (KId i))).
Proof.
  split; [|split; [|split]].
  - split.
    + intros [x Hx]. now apply (metrics_basic_Ok_inv _ _ x).
    + intros [Hne Htot].
      destruct (metrics_of_total t asg Hne Htot) as (td & sf & er & Hb & _). eauto.
  - split.
    + intros [x Hx]. now apply (metrics_fthr_Ok_inv _ _ x).
    + intros [Hne Htot].
      destruct (metrics_of_total t asg Hne Htot) as (td & sf & er & _ & Hf & _).
      eauto.
  - intros Hnil. unfold metrics_basic, metrics_fthr. rewrite Hnil.
    split; reflexivity.
  - intros l1 i l2 Hcs Hl1 Hi.
    assert (Hl1' : Forall (fun i' => exists q,
                             at_assigned (distance (load t)) asg i' = Ok q) l1).
    { eapply Forall_impl; [exact Hl1|]. cbv beta. intros i' (j & Hj & [q Hq]).
      exists q. unfold at_assigned, getassigned, getitem2.
      now rewrite Hj, bind_Ok, Hq. }
    split.
    + now apply (metrics_basic_unassigned _ _ l1 i l2).
    + now apply (metrics_fthr_unassigned _ _ l1 i l2).
Qed.

(** ** Sums of 0/1 values *)

Section BinarySums.
Context {A : Type}.
Variable f : A -> Q.
Implicit Types (l : list A) (c : A -> Q).

Lemma Qsum_zero l : Forall (fun x => f x == 0) l -> Qsum f l == 0.
Proof.
  induction 1 as [|x l Hx _ IH]; simpl; [reflexivity|]. rewrite Hx, IH. ring.
Qed.

Lemma Qsum_ge_elem l x :
  Forall (fun y => 0 <= f y) l -> x ∈ l -> f x <= Qsum f l.
Proof.
  intros Hnn Hin. induction Hnn as [|y l Hy Hl IH]; [now apply elem_of_nil in Hin|].
  simpl. pose proof (Qsum_nonneg f l Hl) as Hs.
  apply elem_of_cons in Hin as [->|Hin]; [lra|]. specialize (IH Hin). lra.
Qed.

Lemma zero_one_nonneg l : zero_one f l -> Forall (fun x => 0 <= f x) l.
Proof.
  intros H. eapply Forall_impl; [exact H|]. cbv beta. intros x [Hx|Hx]; lra.
Qed.

Lemma zero_one_sum_zero l x :
  zero_one f l -> Qsum f l == 0 -> x ∈ l -> f x == 0.
Proof.
  intros Hb Hs Hin. pose proof (zero_one_nonneg l Hb) as Hnn.
  pose proof (Qsum_ge_elem l x Hnn Hin) as Hle.
  rewrite Forall_forall in Hnn. specialize (Hnn x Hin). lra.
Qed.

(** With sum 1, exactly one element of the list is at 1. *)
Lemma zero_one_unique l x y :
  zero_one f l -> Qsum f l == 1 -> x ∈ l -> y ∈ l -> f x == 1 -> f y == 1 -> x = y.
Proof.
  intros Hb. induction Hb as [|a l Ha Hl IH]; intros Hs Hx Hy Hfx Hfy;
    [now apply elem_of_nil in Hx|].
  simpl in Hs.
  assert (Hrest : forall z, z ∈ l -> f z == 1 -> f a == 0 /\ Qsum f l == 1).
  { intros z Hz Hfz.
    pose proof (Qsum_ge_elem l z (zero_one_nonneg l Hl) Hz) as Hle.
    destruct Ha as [Ha|Ha]; lra. }
  apply elem_of_cons in Hx as [->|Hx]; apply elem_of_cons in Hy as [->|Hy].
  - reflexivity.
  - destruct (Hrest y Hy Hfy). lra.
  - destruct (Hrest x Hx Hfx). lra.
  - destruct (Hrest x Hx Hfx) as [_ Hs']. now apply IH.
Qed.

Lemma zero_one_exists l :
  zero_one f l -> Qsum f l == 1 ->
  exists x, last (filter (fun x => Qeq_bool (f x) 1 = true) l) = Some x.
Proof.
  intros Hb Hs.
  destruct (last (filter (fun x => Qeq_bool (f x) 1 = true) l)) as [x|] eqn:E;
    [eauto|].
  exfalso. rewrite last_filter_None in E.
  assert (Hz : Forall (fun x => f x == 0) l).
  { apply Forall_forall. intros x Hin. unfold zero_one in Hb.
    rewrite Forall_forall in Hb. destruct (Hb x Hin) as [H0|H1]; [exact H0|].
    exfalso. apply (E x Hin). now apply Qeq_bool_iff. }
  rewrite (Qsum_zero l Hz) in Hs. lra.
Qed.

(** A weighted sum over 0/1 values with sum 1 picks the weight of the
    element at 1. *)
Lemma zero_one_pick l c x :
  zero_one f l -> Qsum f l == 1 -> x ∈ l -> f x == 1 ->
  Qsum (fun y => c y * f y) l == c x.
Proof.
  intros Hb. induction Hb as [|a l Ha Hl IH]; intros Hs Hx Hfx;
    [now apply elem_of_nil in Hx|].
  simpl in Hs |- *. destruct Ha as [Ha|Ha].
  - apply elem_of_cons in Hx as [->|Hx]; [lra|].
    rewrite IH; [rewrite Ha; ring | lra | exact Hx | exact Hfx].
  - assert (Hs' : Qsum f l == 0) by lra.
    apply elem_of_cons in Hx as [->|Hx].
    + rewrite (Qsum_ext _ (fun _ => 0)).
      * rewrite Qsum_const, Ha. ring.
      * apply Forall_forall. intros y Hy.
        rewrite (zero_one_sum_zero l y Hl Hs' Hy). ring.
    + pose proof (zero_one_sum_zero l x Hl Hs' Hx). lra.
Qed.


End BinarySums.

(** ** Runs on a feasible solution *)

Section FeasibleRun.
Variable t : Tables.
Variable m : LpProblem.
Variable v : LpVariable -> Q.
Hypothesis Hbuilt : model_basic (load t) = Ok m \/ model_fthr (load t) = Ok m.
Hypothesis Hfeas : feasible m v.
Local Abbreviation pd := (load t).

Lemma feasible_complete : complete_matrix pd = true.
Proof using Hbuilt.
  destruct Hbuilt as [Hm|Hm];
    [eapply model_basic_complete | eapply model_fthr_complete]; exact Hm.
Qed.

Lemma feasible_families :
  binary (x_basic pd) v /\ binary (y_basic pd) v /\
  single_assignment pd v /\ capacity_respected pd v /\ linked pd v.
Proof using Hbuilt Hfeas.
  destruct Hfeas as [Hbin Hsat].
  destruct (models_load t feasible_complete) as (cs & Hcs & Hb & Hf).
  assert (Hvars : variables m = x_basic pd ++ y_basic pd /\ constraints m = cs).
  { destruct Hbuilt as [Hm|Hm];
      [rewrite Hm in Hb; injection Hb as -> | rewrite Hm in Hf; injection Hf as ->];
      now split. }
  destruct Hvars as [Hv Hc]. rewrite Hv in Hbin. rewrite Hc in Hsat.
  rewrite constraints_basic_load in Hcs. injection Hcs as <-.
  apply constraints_meaning in Hsat.
  split; [exact (binary_app_l _ _ _ Hbin)|].
  split; [exact (binary_app_r _ _ _ Hbin) | exact Hsat].
Qed.

Lemma customer_zero_one i :
  i ∈ customers pd -> zero_one (fun j => v (assign i j)) (dcs pd).
Proof using Hbuilt Hfeas.
  intros Hi. destruct feasible_families as (Hx & _).
  unfold binary, x_basic in Hx. rewrite List.Forall_map, Forall_pairs in Hx.
  rewrite Forall_forall in Hx. exact (Hx i Hi).
Qed.

Lemma customer_sum_one i :
  i ∈ customers pd -> Qsum (fun j => v (assign i j)) (dcs pd) == 1.
Proof using Hbuilt Hfeas.
  intros Hi. destruct feasible_families as (_ & _ & Hs & _).
  unfold single_assignment in Hs. rewrite Forall_forall in Hs. exact (Hs i Hi).
Qed.

Lemma dc_zero_one : zero_one (fun j => v (open j)) (dcs pd).
Proof using Hbuilt Hfeas.
  destruct feasible_families as (_ & Hy & _).
  unfold binary, y_basic in Hy. now rewrite List.Forall_map in Hy.
Qed.

Lemma assigned_is_open i j :
  i ∈ customers pd -> j ∈ dcs pd -> v (assign i j) == 1 -> v (open j) == 1.
Proof using Hbuilt Hfeas.
  intros Hi Hj Hx. destruct feasible_families as (_ & _ & _ & _ & Hl).
  unfold linked in Hl. rewrite Forall_forall in Hl. specialize (Hl i Hi).
  rewrite Forall_forall in Hl. specialize (Hl j Hj). cbv beta in Hl.
  pose proof dc_zero_one as Hy. unfold zero_one in Hy.
  rewrite Forall_forall in Hy. destruct (Hy j Hj) as [H0|H1]; [lra | exact H1].
Qed.

Variable st : LpStatus.

Lemma feasible_lookup i :
  i ∈ customers pd ->
  basic_assignments pd (solution_of st v) !! i
  = last (filter (fun j => Qeq_bool (v (assign i j)) 1 = true) (dcs pd)).
Proof.
  intros Hi. unfold basic_assignments.
  rewrite (comprehension_lookup
             (fun ij => is_one (varValue (solution_of st v) (assign ij.1 ij.2)) = true)
             (customers pd) (dcs pd) i).
  now rewrite decide_True by exact Hi.
Qed.

Lemma feasible_assigned i :
  i ∈ customers pd ->
  exists j, basic_assignments pd (solution_of st v) !! i = Some j /\
            j ∈ dcs pd /\ v (assign i j) == 1.
Proof using Hbuilt Hfeas.
  intros Hi. rewrite (feasible_lookup i Hi).
  destruct (zero_one_exists (fun j => v (assign i j)) (dcs pd)
                            (customer_zero_one i Hi) (customer_sum_one i Hi))
    as [j Hj].
  exists j. split; [exact Hj|].
  apply last_Some_elem_of, list_elem_of_filter in Hj as [Hone Hin].
  split; [exact Hin | now apply Qeq_bool_iff].
Qed.

Lemma feasible_total_on : total_on pd (basic_assignments pd (solution_of st v)).
Proof using Hbuilt Hfeas.
  unfold total_on. apply Forall_forall. intros i Hi.
  destruct (feasible_assigned i Hi) as (j & Hj & Hin & _).
  exists j. split; [exact Hj|].
  apply (complete_matrix_spec t (i, j) feasible_complete).
  unfold pairs. apply list_elem_of_In, in_flat_map. exists i.
  split; [now apply list_elem_of_In|].
  apply in_map_iff. exists j. split; [reflexivity | now apply list_elem_of_In].
Qed.

End FeasibleRun.

(** X6.  When the solver's values are a feasible 0/1 solution of a built
    model, extraction gives every customer exactly the one DC whose
    [assign] variable is 1: that DC is a DC of the problem, it is among the
    opened DCs, and every other DC has the variable at 0.  Both variants
    extract the same Assignment from the same values. *)
Theorem feasible_solution_assignment
        (t : Tables) (m : LpProblem) (v : LpVariable -> Q) (st : LpStatus) (i : Z) :
  model_basic (load t) = Ok m \/ model_fthr (load t) = Ok m ->
  feasible m v ->
  i ∈ customers (load t) ->
  exists j,
    basic_assignments (load t) (solution_of st v) !! i = Some j /\
    fthr_assignments (load t) (solution_of st v) !! i = Some j /\
    j ∈ dcs (load t) /\
    v (assign i j) == 1 /\
    j ∈ basic_opened_dcs (load t) (solution_of st v) /\
    j ∈ fthr_opened_dcs (load t) (solution_of st v) /\
    (forall j', j' ∈ dcs (load t) -> v (assign i j') == 1 -> j' = j) /\
    (forall j', j' ∈ dcs (load t) -> j' <> j -> v (assign i j') == 0).
Proof.
  intros Hbuilt Hfeas Hi.
  destruct (feasible_assigned t m v Hbuilt Hfeas st i Hi) as (j & Hj & Hin & Hone).
  pose proof (customer_zero_one t m v Hbuilt Hfeas i Hi) as Hzo.
  pose proof (customer_sum_one t m v Hbuilt Hfeas i Hi) as Hsum.
  assert (Hopen : j ∈ basic_opened_dcs (load t) (solution_of st v)).
  { unfold basic_opened_dcs. apply list_elem_of_filter. split; [|exact Hin].
    cbn. apply Qeq_bool_iff.
    exact (assigned_is_open t m v Hbuilt Hfeas i j Hi Hin Hone). }
  assert (Huniq : forall j', j' ∈ dcs (load t) -> v (assign i j') == 1 -> j' = j).
  { intros j' Hin' Hone'.
    exact (zero_one_unique (fun j => v (assign i j)) (dcs (load t)) j' j
                           Hzo Hsum Hin' Hin Hone' Hone). }
  exists j. repeat split; try assumption.
  intros j' Hin' Hne. unfold zero_one in Hzo. rewrite Forall_forall in Hzo.
  destruct (Hzo j' Hin') as [H0|H1]; [exact H0|].
  exfalso. apply Hne. now apply Huniq.
Qed.

Lemma feasible_solution_assignment_witness :
  exists j,
    basic_assignments (load scenario_A) (solution_of Optimal all_to_dc1) !! 1%Z
    = Some j /\ j ∈ dcs (load scenario_A).
Proof.
  destruct scenario_A_optimum as (mb & Hmb & [Hfeas _] & _).
  destruct (feasible_solution_assignment scenario_A mb all_to_dc1 Optimal 1%Z
              (or_introl Hmb) Hfeas)
    as (j & Hj & _ & Hin & _).
  - vm_compute. apply list_elem_of_here.
  - exists j. now split.
Defined.

Section FeasibleResults.
Variable t : Tables.
Variable m : LpProblem.
Variable v : LpVariable -> Q.
Variable st : LpStatus.
Hypothesis Hbuilt : model_basic (load t) = Ok m \/ model_fthr (load t) = Ok m.
Hypothesis Hfeas : feasible m v.
Local Abbreviation pd := (load t).
Local Abbreviation asg := (basic_assignments (load t) (solution_of st v)).

Lemma assigned_dc i :
  i ∈ customers pd -> asg !!! i ∈ dcs pd /\ v (assign i (asg !!! i)) == 1.
Proof using Hbuilt Hfeas.
  intros Hi.
  destruct (feasible_assigned t m v Hbuilt Hfeas st i Hi) as (j & Hj & Hin & Hone).
  rewrite lookup_total_alt, Hj. cbn. now split.
Qed.


Lemma redelivery_term_assigned :
  redelivery_term pd v
  == Qsum (fun i => (transport_cost pd !!! (i, asg !!! i))
                    * (1 - (fthr pd !!! (i, asg !!! i))))
          (customers pd).
Proof using Hbuilt Hfeas.
  unfold redelivery_term. rewrite Qsum_pairs. cbn [fst snd].
  apply Qsum_ext, Forall_forall. intros i Hi.
  destruct (assigned_dc i Hi) as [Hin Hone].
  exact (zero_one_pick (fun j => v (assign i j)) (dcs pd)
                       (fun j => (transport_cost pd !!! (i, j))
                                 * (1 - (fthr pd !!! (i, j))))
                       (asg !!! i)
                       (customer_zero_one t m v Hbuilt Hfeas i Hi)
                       (customer_sum_one t m v Hbuilt Hfeas i Hi) Hin Hone).
Qed.



End FeasibleResults.

Lemma results_basic_feasible
      (t : Tables) (m : LpProblem) (v : LpVariable -> Q) (st : LpStatus) :
  customers (load t) <> [] ->
  model_basic (load t) = Ok m ->
  feasible m v ->
  exists r c,
    results_basic (load t) m (solution_of st v) = Ok r /\
    r_status r = st /\
    r_total_cost r = Some c /\
    c == eval v (fixed_terms_of (load t)) + transport_term (load t) v /\
    r_opened_dcs r = basic_opened_dcs (load t) (solution_of st v) /\
    r_assignments r = basic_assignments (load t) (solution_of st v) /\
    r_total_distance r
    == Qsum (fun i => distance (load t)
                      !!! (i, basic_assignments (load t) (solution_of st v) !!! i))
            (customers (load t)) /\
    r_expected_redelivery r = None.
Proof.
  intros Hne Hm Hfeas.
  pose proof (feasible_total_on t m v (or_introl Hm) Hfeas st) as Htot.
  destruct (metrics_of_total t _ Hne Htot) as (td & sf & er & Hb & _ & Etd & _).
  destruct (models_load t (model_basic_complete t m Hm)) as (cs & _ & Hb' & _).
  rewrite Hm in Hb'. injection Hb' as ->.
  destruct (value_eval v (fixed_terms_of (load t) ++ transport_terms_of (load t)))
    as (c & Hc & Ec).
  eexists. exists c. split.
  { unfold results_basic. rewrite Hb. cbn [objective]. reflexivity. }
  cbn [r_status r_total_cost r_opened_dcs r_assignments r_total_distance
       r_expected_redelivery sol_status solution_of varValue].
  split; [reflexivity|]. split; [exact Hc|].
  split; [rewrite Ec, eval_app; unfold transport_terms_of, transport_term;
          now rewrite eval_map|].
  now repeat split.
Qed.

Lemma results_fthr_feasible
      (t : Tables) (m : LpProblem) (v : LpVariable -> Q) (st : LpStatus) :
  customers (load t) <> [] ->
  model_fthr (load t) = Ok m ->
  feasible m v ->
  exists r c er,
    results_fthr (load t) m (solution_of st v) = Ok r /\
    r_status r = st /\
    r_total_cost r = Some c /\
    c == eval v (fixed_terms_of (load t)) + transport_term (load t) v
         + redelivery_term (load t) v /\
    r_opened_dcs r = fthr_opened_dcs (load t) (solution_of st v) /\
    r_assignments r = fthr_assignments (load t) (solution_of st v) /\
    r_total_distance r
    == Qsum (fun i => distance (load t)
                      !!! (i, fthr_assignments (load t) (solution_of st v) !!! i))
            (customers (load t)) /\
    r_expected_redelivery r = Some er /\
    er == redelivery_term (load t) v.
Proof.
  intros Hne Hm Hfeas.
  pose proof (feasible_total_on t m v (or_intror Hm) Hfeas st) as Htot.
  pose proof (redelivery_term_assigned t m v st (or_intror Hm) Hfeas) as Hred.
  destruct (metrics_of_total t _ Hne Htot) as (td & sf & er & _ & Hf & Etd & _ & Eer).
  destruct (models_load t (model_fthr_complete t m Hm)) as (cs & _ & _ & Hf').
  rewrite Hm in Hf'. injection Hf' as ->.
  destruct (value_eval v (fixed_terms_of (load t) ++ transport_terms_of (load t)
                          ++ redelivery_terms_of (load t)))
    as (c & Hc & Ec).
  eexists. exists c, er. split.
  { unfold results_fthr.
    change (fthr_assignments (load t) (solution_of st v))
      with (basic_assignments (load t) (solution_of st v)).
    rewrite Hf. cbn [objective]. reflexivity. }
  cbn [r_status r_total_cost r_opened_dcs r_assignments r_total_distance
       r_expected_redelivery sol_status solution_of varValue].
  split; [reflexivity|]. split; [exact Hc|].
  split; [rewrite Ec, !eval_app, eval_redelivery;
          unfold transport_terms_of, transport_term; rewrite eval_map; ring|].
  split; [reflexivity|]. split; [reflexivity|]. split; [exact Etd|].
  split; [reflexivity|].
  rewrite Eer. symmetry. exact Hred.
Qed.





(** ** The exported tables *)

Lemma mapM_Forall2 {A B} (f : A -> result B) (P : A -> B -> Prop) (l : list A) :
  Forall (fun x => exists y, f x = Ok y /\ P x y) l ->
  exists k, mapM f l = Ok k /\ Forall2 P l k.
Proof.
  induction 1 as [|x l (y & Hy & HP) _ (k & Hk & HF)].
  - exists []. split; [reflexivity | constructor].
  - exists (y :: k). split; [|now constructor].
    cbn [mapM]. now rewrite Hy, bind_Ok, Hk.
Qed.

Lemma Qsum_Forall2 {A B} (f : A -> Q) (g : B -> Q) (l : list A) (k : list B) :
  Forall2 (fun x y => g y == f x) l k -> Qsum g k == Qsum f l.
Proof.
  induction 1 as [|x y l k Hxy _ IH]; simpl; [reflexivity|]. now rewrite Hxy, IH.
Qed.

Lemma Forall2_map_eq {A B C} (f : A -> C) (g : B -> C) (l : list A) (k : list B) :
  Forall2 (fun x y => g y = f x) l k -> map g k = map f l.
Proof.
  induction 1 as [|x y l k Hxy _ IH]; simpl; [reflexivity|]. now rewrite Hxy, IH.
Qed.

Lemma sum_if_from_Ok {A} (cond : A -> result bool) (f : A -> result Q)
      (cb : A -> bool) (g : A -> Q) (l : list A) (acc : Q) :
  Forall (fun x => cond x = Ok (cb x) /\ (cb x = true -> f x = Ok (g x))) l ->
  exists q, sum_if_from acc cond f l = Ok q /\
            q == acc + Qsum (fun x => if cb x then g x else 0) l.
Proof.
  intros H. revert acc.
  induction H as [|x l [Hc Hf] _ IH]; intros acc; cbn [sum_if_from Qsum].
  - exists acc. split; [reflexivity | ring].
  - rewrite Hc. destruct (cb x) eqn:E.
    + rewrite (Hf eq_refl). destruct (IH (acc + g x)) as (q & Hq & Eq).
      exists q. split; [exact Hq|]. rewrite Eq. ring.
    + destruct (IH acc) as (q & Hq & Eq).
      exists q. split; [exact Hq|]. rewrite Eq. ring.
Qed.

Lemma py_sum_if_Ok {A} (cond : A -> result bool) (f : A -> result Q)
      (cb : A -> bool) (g : A -> Q) (l : list A) :
  Forall (fun x => cond x = Ok (cb x) /\ (cb x = true -> f x = Ok (g x))) l ->
  exists q, py_sum_if cond f l = Ok q /\
            q == Qsum (fun x => if cb x then g x else 0) l.
Proof.
  intros H. destruct (sum_if_from_Ok cond f cb g l 0 H) as (q & Hq & Eq).
  exists q. split; [exact Hq|]. rewrite Eq. ring.
Qed.

Section Tables.
Variable t : Tables.
Local Abbreviation pd := (load t).
Variable asg : gmap Z Z.
Hypothesis Htot : total_on pd asg.

Lemma assigned_to_total j :
  Forall (fun i => assigned_to asg j i = Ok (bool_decide (asg !!! i = j)))
         (customers pd).
Proof using Htot.
  eapply Forall_impl; [exact (total_on_function pd asg Htot)|]. cbv beta.
  intros i [Hi _]. unfold assigned_to, getassigned. now rewrite Hi.
Qed.

(** The number of customers and the load of a DC, as the summary has them. *)
Lemma customers_of_total j :
  exists n, customers_of pd asg j = Ok n /\
            n == Qsum (fun i => if bool_decide (asg !!! i = j) then 1 else 0)
                      (customers pd).
Proof using Htot.
  apply py_sum_if_Ok. eapply Forall_impl; [exact (assigned_to_total j)|].
  cbv beta. intros i Hi. now split.
Qed.

Lemma load_of_total j :
  exists l, load_of pd asg j = Ok l /\
            l == Qsum (fun i => if bool_decide (asg !!! i = j)
                                then demand pd !!! i else 0)
                      (customers pd).
Proof using Htot.
  apply py_sum_if_Ok. apply Forall_forall. intros i Hi.
  pose proof (assigned_to_total j) as Ha. rewrite Forall_forall in Ha.
  split; [exact (Ha i Hi)|]. intros _. exact (load_demand t i Hi).
Qed.

Lemma detail_lookups i :
  i ∈ customers pd ->
  getassigned asg i = Ok (asg !!! i) /\
  getitem (demand pd) i = Ok (demand pd !!! i) /\
  at_assigned (distance pd) asg i = Ok (distance pd !!! (i, asg !!! i)) /\
  at_assigned (fthr pd) asg i = Ok (fthr pd !!! (i, asg !!! i)) /\
  at_assigned (transport_cost pd) asg i = Ok (transport_cost pd !!! (i, asg !!! i)).
Proof using Htot.
  intros Hi. pose proof (total_on_function pd asg Htot) as Hf.
  pose proof (at_assigned_distance t asg _ Hf) as Hd.
  pose proof (at_assigned_fthr t asg _ Hf) as Hr.
  pose proof (at_assigned_transport_cost t asg _ Hf) as Hc.
  rewrite Forall_forall in Hf, Hd, Hr, Hc.
  destruct (Hf i Hi) as [Ha _]. unfold getassigned. rewrite Ha.
  split; [reflexivity|]. split; [exact (load_demand t i Hi)|].
  split; [exact (Hd i Hi)|]. split; [exact (Hr i Hi) | exact (Hc i Hi)].
Qed.

Lemma basic_detail_total :
  basic_detail pd asg
  = Ok (map (fun i =>
               {| dt_customer_id := i; dt_assigned_dc := asg !!! i;
                  dt_demand := demand pd !!! i;
                  dt_distance_km := distance pd !!! (i, asg !!! i);
                  dt_fthr := fthr pd !!! (i, asg !!! i);
                  dt_transport_cost := transport_cost pd !!! (i, asg !!! i);
                  dt_expected_redelivery_cost := None |})
            (customers pd)).
Proof using Htot.
  unfold basic_detail. apply mapM_Ok, Forall_forall. intros i Hi.
  destruct (detail_lookups i Hi) as (-> & -> & -> & -> & ->). reflexivity.
Qed.

Lemma fthr_detail_total :
  fthr_detail pd asg
  = Ok (map (fun i =>
               {| dt_customer_id := i; dt_assigned_dc := asg !!! i;
                  dt_demand := demand pd !!! i;
                  dt_distance_km := distance pd !!! (i, asg !!! i);
                  dt_fthr := fthr pd !!! (i, asg !!! i);
                  dt_transport_cost := transport_cost pd !!! (i, asg !!! i);
                  dt_expected_redelivery_cost :=
                    Some ((transport_cost pd !!! (i, asg !!! i))
                          * (1 - (fthr pd !!! (i, asg !!! i)))) |})
            (customers pd)).
Proof using Htot.
  unfold fthr_detail. apply mapM_Ok, Forall_forall. intros i Hi.
  destruct (detail_lookups i Hi) as (-> & -> & -> & -> & ->). reflexivity.
Qed.

End Tables.

Lemma results_basic_inv pd m sol r :
  results_basic pd m sol = Ok r ->
  exists td ad af,
    metrics_basic pd (basic_assignments pd sol) = Ok (td, ad, af) /\
    r = {| r_status := sol_status sol;
           r_total_cost := value (objective m) (varValue sol);
           r_opened_dcs := basic_opened_dcs pd sol;
           r_assignments := basic_assignments pd sol;
           r_total_distance := td; r_avg_distance := ad; r_avg_fthr := af;
           r_expected_redelivery := None |}.
Proof.
  unfold results_basic.
  destruct (metrics_basic pd (basic_assignments pd sol)) as [[[td ad] af]|e];
    [|discriminate].
  intros [= <-]. now exists td, ad, af.
Qed.

Lemma results_fthr_inv pd m sol r :
  results_fthr pd m sol = Ok r ->
  exists td ad af er,
    metrics_fthr pd (fthr_assignments pd sol) = Ok (td, ad, af, er) /\
    r = {| r_status := sol_status sol;
           r_total_cost := value (objective m) (varValue sol);
           r_opened_dcs := fthr_opened_dcs pd sol;
           r_assignments := fthr_assignments pd sol;
           r_total_distance := td; r_avg_distance := ad; r_avg_fthr := af;
           r_expected_redelivery := Some er |}.
Proof.
  unfold results_fthr.
  destruct (metrics_fthr pd (fthr_assignments pd sol)) as [[[[td ad] af] er]|e];
    [|discriminate].
  intros [= <-]. now exists td, ad, af, er.
Qed.

(** An entry of the Assignment maps a customer to a DC of the problem. *)
Lemma assignments_in_dcs pd sol i j :
  basic_assignments pd sol !! i = Some j -> i ∈ customers pd /\ j ∈ dcs pd.
Proof.
  unfold basic_assignments.
  rewrite (comprehension_lookup
             (fun ij => is_one (varValue sol (assign ij.1 ij.2)) = true)
             (customers pd) (dcs pd) i).
  destruct (decide (i ∈ customers pd)) as [Hi|Hi]; [|discriminate].
  intros Hl. split; [exact Hi|].
  apply last_Some_elem_of, list_elem_of_filter in Hl. tauto.
Qed.

Lemma indicator_sum (w : Q) (x : Z) (l : list Z) :
  NoDup l -> x ∈ l ->
  Qsum (fun j => if bool_decide (x = j) then w else 0) l == w.
Proof.
  induction 1 as [|a l Ha Hl IH]; intros Hx; [now apply elem_of_nil in Hx|].
  simpl. apply elem_of_cons in Hx as [->|Hx].
  - rewrite bool_decide_eq_true_2 by reflexivity.
    rewrite (Qsum_ext _ (fun _ => 0)).
    + rewrite Qsum_const. ring.
    + apply Forall_forall. intros j Hj.
      rewrite bool_decide_eq_false_2; [reflexivity|]. intros ->. contradiction.
  - rewrite bool_decide_eq_false_2 by (intros ->; contradiction).
    rewrite (IH Hx). ring.
Qed.

(** Summed over the DCs, the per-DC sums over the customers assigned to
    each DC give the sum over all customers. *)
Lemma per_dc_sums (t : Tables) (sol : Solution) (w : Z -> Q) :
  total_on (load t) (basic_assignments (load t) sol) ->
  Qsum (fun j =>
          Qsum (fun i => if bool_decide (basic_assignments (load t) sol !!! i = j)
                         then w i else 0)
               (customers (load t)))
       (dcs (load t))
  == Qsum w (customers (load t)).
Proof.
  intros Htot. rewrite <- Qsum_swap. apply Qsum_ext.
  eapply Forall_impl; [exact (total_on_function _ _ Htot)|]. cbv beta.
  intros i [Hi _]. apply assignments_in_dcs in Hi as [_ Hin].
  apply indicator_sum; [|exact Hin].
  cbn [dcs load]. apply unique_NoDup.
Qed.

Lemma dc_summary_total (t : Tables) (rb rf : VariantResults) :
  total_on (load t) (r_assignments rb) ->
  total_on (load t) (r_assignments rf) ->
  exists ds, dc_summary (load t) rb rf = Ok ds /\
             Forall2 (summary_row (load t) rb rf) (dcs (load t)) ds.
Proof.
  intros Hb Hf. unfold dc_summary. apply mapM_Forall2, Forall_forall.
  intros j Hj.
  destruct (customers_of_total t _ Hb j) as (nb & Hnb & Enb).
  destruct (customers_of_total t _ Hf j) as (nf & Hnf & Enf).
  destruct (load_of_total t _ Hb j) as (lb & Hlb & Elb).
  destruct (load_of_total t _ Hf j) as (lf & Hlf & Elf).
  rewrite (load_capacity t j Hj), bind_Ok, (load_fixed_cost t j Hj), bind_Ok.
  rewrite Hnb, bind_Ok, Hnf, bind_Ok, Hlb, bind_Ok, Hlf, bind_Ok.
  eexists. split; [reflexivity|].
  unfold summary_row, count_at, load_at. cbn. now repeat split.
Qed.

Lemma summary_sums (t : Tables) (rb rf : VariantResults) (solb solf : Solution)
      (ds : list DcSummaryRow) :
  r_assignments rb = basic_assignments (load t) solb ->
  r_assignments rf = basic_assignments (load t) solf ->
  total_on (load t) (r_assignments rb) ->
  total_on (load t) (r_assignments rf) ->
  Forall2 (summary_row (load t) rb rf) (dcs (load t)) ds ->
  map ds_dc_id ds = dcs (load t) /\
  Qsum ds_customers_basic ds == len (customers (load t)) /\
  Qsum ds_customers_fthr ds == len (customers (load t)) /\
  Qsum ds_load_basic ds == total_demand (load t) /\
  Qsum ds_load_fthr ds == total_demand (load t).
Proof.
  intros Eb Ef Hb Hf Hrows.
  split.
  { rewrite <- (map_id (dcs (load t))). apply Forall2_map_eq.
    eapply Forall2_impl; [exact Hrows|]. now intros j row (-> & _). }
  assert (Hcount : forall sol,
             total_on (load t) (basic_assignments (load t) sol) ->
             Qsum (count_at (load t) (basic_assignments (load t) sol)) (dcs (load t))
             == len (customers (load t))).
  { intros sol Htot. unfold count_at.
    rewrite (per_dc_sums t sol (fun _ => 1) Htot), Qsum_const. ring. }
  assert (Hload : forall sol,
             total_on (load t) (basic_assignments (load t) sol) ->
             Qsum (load_at (load t) (basic_assignments (load t) sol)) (dcs (load t))
             == total_demand (load t)).
  { intros sol Htot. unfold load_at.
    now rewrite (per_dc_sums t sol (fun i => demand (load t) !!! i) Htot). }
  rewrite Eb in Hb. rewrite Ef in Hf.
  split; [|split; [|split]].
  - rewrite <- (Hcount solb Hb), <- Eb. apply Qsum_Forall2.
    eapply Forall2_impl; [exact Hrows|]. now intros j row (_ & _ & _ & _ & _ & ? & _).
  - rewrite <- (Hcount solf Hf), <- Ef. apply Qsum_Forall2.
    eapply Forall2_impl; [exact Hrows|].
    now intros j row (_ & _ & _ & _ & _ & _ & ? & _).
  - rewrite <- (Hload solb Hb), <- Eb. apply Qsum_Forall2.
    eapply Forall2_impl; [exact Hrows|].
    now intros j row (_ & _ & _ & _ & _ & _ & _ & ? & _).
  - rewrite <- (Hload solf Hf), <- Ef. apply Qsum_Forall2.
    eapply Forall2_impl; [exact Hrows|].
    now intros j row (_ & _ & _ & _ & _ & _ & _ & _ & ?).
Qed.

(** The tables built from the results of two completed stages. *)
Lemma export_tables_of_results
        (t : Tables) (mb mf : LpProblem) (solb solf : Solution)
        (rb rf : VariantResults) :
  results_basic (load t) mb solb = Ok rb ->
  results_fthr (load t) mf solf = Ok rf ->
  exists bd fd ds er,
    export_tables (load t) rb rf = Ok (bd, fd, ds) /\
    map dt_customer_id bd = customers (load t) /\
    map dt_customer_id fd = customers (load t) /\
    map ds_dc_id ds = dcs (load t) /\
    Qsum dt_distance_km bd == r_total_distance rb /\
    Qsum dt_distance_km fd == r_total_distance rf /\
    r_expected_redelivery rf = Some er /\
    Qsum (fun row => default 0 (dt_expected_redelivery_cost row)) fd == er /\
    Qsum ds_customers_basic ds == len (customers (load t)) /\
    Qsum ds_customers_fthr ds == len (customers (load t)) /\
    Qsum ds_load_basic ds == total_demand (load t) /\
    Qsum ds_load_fthr ds == total_demand (load t).
Proof.
  intros Hrb Hrf.
  apply results_basic_inv in Hrb as (tdb & adb & afb & Hmb & ->).
  apply results_fthr_inv in Hrf as (tdf & adf & aff & er & Hmf & ->).
  change (fthr_assignments (load t) solf)
    with (basic_assignments (load t) solf) in *.
  destruct (metrics_basic_Ok_inv _ _ _ Hmb) as [Hne Htb].
  destruct (metrics_fthr_Ok_inv _ _ _ Hmf) as [_ Htf].
  destruct (metrics_of_total t _ Hne Htb) as (td1 & sf1 & er1 & Hb1 & _ & Etd1 & _).
  destruct (metrics_of_total t _ Hne Htf)
    as (td2 & sf2 & er2 & _ & Hf2 & Etd2 & _ & Eer2).
  rewrite Hmb in Hb1. injection Hb1 as -> _ _.
  rewrite Hmf in Hf2. injection Hf2 as -> _ _ ->.
  match goal with
  | |- context [export_tables _ ?b ?f] =>
      destruct (dc_summary_total t b f Htb Htf) as (ds & Hds & Hrows);
      destruct (summary_sums t b f solb solf ds eq_refl eq_refl Htb Htf Hrows)
        as (Hids & Hcb & Hcf & Hlb & Hlf)
  end.
  eexists. eexists. exists ds, er2. split.
  { unfold export_tables. cbn [r_assignments].
    rewrite (basic_detail_total t _ Htb), bind_Ok.
    rewrite (fthr_detail_total t _ Htf), bind_Ok.
    rewrite Hds. reflexivity. }
  cbn [r_total_distance r_expected_redelivery].
  rewrite !map_map, !Qsum_map. cbn [dt_customer_id dt_distance_km
                                    dt_expected_redelivery_cost default].
  rewrite map_id.
  split; [reflexivity|]. split; [reflexivity|]. split; [exact Hids|].
  split; [now rewrite Etd1|]. split; [now rewrite Etd2|].
  split; [reflexivity|]. split; [now rewrite Eer2|].
  now repeat split.
Qed.

(** X9.  Whenever the results of both stages have been computed, the three
    exported tables are built without an exception: one detail row per
    customer in customer order, one summary row per DC in DC order.  The
    distance column of a detail table adds up to the reported total
    distance and the redelivery column of the FTHR table to the reported
    expected redelivery cost; in the summary the customer counts of either
    variant add up to the number of customers and the loads to the total
    demand. *)
Theorem export_tables_succeed
        (t : Tables) (mb mf : LpProblem) (solb solf : Solution)
        (rb rf : VariantResults) :
  results_basic (load t) mb solb = Ok rb ->
  results_fthr (load t) mf solf = Ok rf ->
  exists bd fd ds er,
    export_tables (load t) rb rf = Ok (bd, fd, ds) /\
    map dt_customer_id bd = customers (load t) /\
    map dt_customer_id fd = customers (load t) /\
    map ds_dc_id ds = dcs (load t) /\
    Qsum dt_distance_km bd == r_total_distance rb /\
    Qsum dt_distance_km fd == r_total_distance rf /\
    r_expected_redelivery rf = Some er /\
    Qsum (fun row => default 0 (dt_expected_redelivery_cost row)) fd == er /\
    Qsum ds_customers_basic ds == len (customers (load t)) /\
    Qsum ds_customers_fthr ds == len (customers (load t)) /\
    Qsum ds_load_basic ds == total_demand (load t) /\
    Qsum ds_load_fthr ds == total_demand (load t).
Proof. apply export_tables_of_results. Qed.

Lemma export_tables_succeed_witness :
  exists mb mf rb rf bd fd ds,
    model_basic (load scenario_A) = Ok mb /\
    model_fthr (load scenario_A) = Ok mf /\
    results_basic (load scenario_A) mb (solve_to_dc1 mb) = Ok rb /\
    results_fthr (load scenario_A) mf (solve_to_dc1 mf) = Ok rf /\
    export_tables (load scenario_A) rb rf = Ok (bd, fd, ds) /\
    Qsum ds_load_basic ds == total_demand (load scenario_A).
Proof.
  assert (Hb : exists mb rb, model_basic (load scenario_A) = Ok mb /\
                             results_basic (load scenario_A) mb (solve_to_dc1 mb) = Ok rb).
  { eexists. eexists. split; vm_compute; reflexivity. }
  assert (Hf : exists mf rf, model_fthr (load scenario_A) = Ok mf /\
                             results_fthr (load scenario_A) mf (solve_to_dc1 mf) = Ok rf).
  { eexists. eexists. split; vm_compute; reflexivity. }
  destruct Hb as (mb & rb & Hmb & Hrb). destruct Hf as (mf & rf & Hmf & Hrf).
  destruct (export_tables_succeed scenario_A mb mf _ _ rb rf Hrb Hrf)
    as (bd & fd & ds & er & Hex & _ & _ & _ & _ & _ & _ & _ & _ & _ & Hl & _).
  exists mb, mf, rb, rf, bd, fd, ds. now repeat split.
Defined.

(** ** The summary on feasible solutions *)

Section FeasibleSummary.
Variable t : Tables.
Variable m : LpProblem.
Variable v : LpVariable -> Q.
Variable st : LpStatus.
Hypothesis Hbuilt : model_basic (load t) = Ok m \/ model_fthr (load t) = Ok m.
Hypothesis Hfeas : feasible m v.
Local Abbreviation pd := (load t).
Local Abbreviation asg := (basic_assignments (load t) (solution_of st v)).

Lemma indicator_is_value (w : Q) i j :
  i ∈ customers pd -> j ∈ dcs pd ->
  (if bool_decide (asg !!! i = j) then w else 0) == w * v (assign i j).
Proof using Hbuilt Hfeas.
  intros Hi Hj.
  destruct (assigned_dc t m v st Hbuilt Hfeas i Hi) as [Hin Hone].
  pose proof (customer_zero_one t m v Hbuilt Hfeas i Hi) as Hzo.
  pose proof (customer_sum_one t m v Hbuilt Hfeas i Hi) as Hsum.
  destruct (bool_decide (asg !!! i = j)) eqn:E.
  - apply bool_decide_eq_true in E. rewrite <- E, Hone. ring.
  - apply bool_decide_eq_false in E.
    pose proof Hzo as Hzo'. unfold zero_one in Hzo'. rewrite Forall_forall in Hzo'.
    destruct (Hzo' j Hj) as [H0|H1]; [rewrite H0; ring|].
    exfalso. apply E. symmetry.
    exact (zero_one_unique (fun j => v (assign i j)) (dcs pd) j (asg !!! i)
                           Hzo Hsum Hj Hin H1 Hone).
Qed.

Lemma count_at_value j :
  j ∈ dcs pd -> count_at pd asg j == Qsum (fun i => v (assign i j)) (customers pd).
Proof using Hbuilt Hfeas.
  intros Hj. unfold count_at. apply Qsum_ext, Forall_forall. intros i Hi.
  rewrite (indicator_is_value 1 i j Hi Hj). ring.
Qed.

Lemma load_at_value j :
  j ∈ dcs pd ->
  load_at pd asg j
  == Qsum (fun i => (demand pd !!! i) * v (assign i j)) (customers pd).
Proof using Hbuilt Hfeas.
  intros Hj. unfold load_at. apply Qsum_ext, Forall_forall. intros i Hi.
  exact (indicator_is_value (demand pd !!! i) i j Hi Hj).
Qed.

Lemma opened_flag_value j :
  j ∈ dcs pd ->
  opened_flag (basic_opened_dcs pd (solution_of st v)) j == v (open j).
Proof using Hbuilt Hfeas.
  intros Hj. unfold opened_flag, basic_opened_dcs.
  pose proof (dc_zero_one t m v Hbuilt Hfeas) as Hy. unfold zero_one in Hy.
  rewrite Forall_forall in Hy. specialize (Hy j Hj). cbv beta in Hy.
  destruct (decide (j ∈ filter (fun j0 =>
              is_one (varValue (solution_of st v) (open j0)) = true) (dcs pd)))
    as [Hin|Hout].
  - apply list_elem_of_filter in Hin as [Hone _]. cbn in Hone.
    apply Qeq_bool_iff in Hone. now rewrite Hone.
  - destruct Hy as [H0|H1]; [now rewrite H0|].
    exfalso. apply Hout. apply list_elem_of_filter. split; [|exact Hj].
    cbn. now apply Qeq_bool_iff.
Qed.

(** The load of a DC is within its capacity if it is opened and zero if it
    is not; a DC with a customer is opened. *)
Lemma summary_feasible j :
  j ∈ dcs pd ->
  load_at pd asg j
  <= (capacity pd !!! j) * opened_flag (basic_opened_dcs pd (solution_of st v)) j /\
  (0 < count_at pd asg j ->
   opened_flag (basic_opened_dcs pd (solution_of st v)) j = 1).
Proof using Hbuilt Hfeas.
  intros Hj.
  destruct (feasible_families t m v Hbuilt Hfeas) as (_ & _ & _ & Hcap & Hlink).
  split.
  - rewrite (load_at_value j Hj), (opened_flag_value j Hj).
    unfold capacity_respected in Hcap. rewrite Forall_forall in Hcap.
    exact (Hcap j Hj).
  - intros Hpos. pose proof (opened_flag_value j Hj) as Hflag.
    unfold opened_flag in *.
    destruct (decide (j ∈ basic_opened_dcs pd (solution_of st v)));
      [reflexivity|].
    exfalso. rewrite (count_at_value j Hj) in Hpos.
    assert (Hle : Qsum (fun i => v (assign i j)) (customers pd)
                  <= Qsum (fun _ => v (open j)) (customers pd)).
    { apply Qsum_le. unfold linked in Hlink.
      eapply Forall_impl; [exact Hlink|]. cbv beta. intros i Hi.
      rewrite Forall_forall in Hi. exact (Hi j Hj). }
    rewrite Qsum_const, <- Hflag in Hle. lra.
Qed.

End FeasibleSummary.

Lemma Forall2_Forall_r {A B} (P : A -> B -> Prop) (Q' : B -> Prop)
      (l : list A) (k : list B) :
  Forall2 P l k -> (forall x y, x ∈ l -> P x y -> Q' y) -> Forall Q' k.
Proof.
  induction 1 as [|x y l k Hxy _ IH]; intros HQ; constructor.
  - apply (HQ x y); [apply list_elem_of_here | exact Hxy].
  - apply IH. intros x' y' Hin. apply HQ. now apply list_elem_of_further.
Qed.

(** X10.  When both solves leave feasible 0/1 solutions, every row of the
    DC summary has, for either variant, a load of at most the capacity
    times the opened flag (so within capacity for an opened DC and zero for
    a closed one), and a DC that serves a customer is flagged opened. *)
Theorem dc_summary_within_capacity
        (t : Tables) (mb mf : LpProblem) (vb vf : LpVariable -> Q)
        (sb sf : LpStatus) (rb rf : VariantResults) :
  model_basic (load t) = Ok mb ->
  model_fthr (load t) = Ok mf ->
  feasible mb vb ->
  feasible mf vf ->
  results_basic (load t) mb (solution_of sb vb) = Ok rb ->
  results_fthr (load t) mf (solution_of sf vf) = Ok rf ->
  exists ds,
    dc_summary (load t) rb rf = Ok ds /\
    Forall (fun row =>
              ds_load_basic row <= ds_capacity row * ds_opened_basic row /\
              ds_load_fthr row <= ds_capacity row * ds_opened_fthr row /\
              (0 < ds_customers_basic row -> ds_opened_basic row = 1) /\
              (0 < ds_customers_fthr row -> ds_opened_fthr row = 1))
           ds.
Proof.
  intros Hmb Hmf Hfb Hff Hrb Hrf.
  apply results_basic_inv in Hrb as (tdb & adb & afb & Hb & ->).
  apply results_fthr_inv in Hrf as (tdf & adf & aff & er & Hf & ->).
  change (fthr_assignments (load t) (solution_of sf vf))
    with (basic_assignments (load t) (solution_of sf vf)) in *.
  change (fthr_opened_dcs (load t) (solution_of sf vf))
    with (basic_opened_dcs (load t) (solution_of sf vf)) in *.
  destruct (metrics_basic_Ok_inv _ _ _ Hb) as [_ Htb].
  destruct (metrics_fthr_Ok_inv _ _ _ Hf) as [_ Htf].
  match goal with
  | |- context [dc_summary _ ?b ?f] =>
      destruct (dc_summary_total t b f Htb Htf) as (ds & Hds & Hrows)
  end.
  exists ds. split; [exact Hds|].
  eapply Forall2_Forall_r; [exact Hrows|]. cbv beta.
  intros j row Hj (_ & Hob & Hof & Hcap & _ & Hcb & Hcf & Hlb & Hlf).
  cbn [r_opened_dcs r_assignments] in *.
  destruct (summary_feasible t mb vb sb (or_introl Hmb) Hfb j Hj) as [Hb1 Hb2].
  destruct (summary_feasible t mf vf sf (or_intror Hmf) Hff j Hj) as [Hf1 Hf2].
  rewrite Hob, Hof, Hcap, Hcb, Hcf, Hlb, Hlf. now repeat split.
Qed.

Example scenario_A_fthr_feasible :
  exists mf : LpProblem,
    model_fthr (load scenario_A) = Ok mf /\ feasible mf all_to_dc1.
Proof.
  eexists. split; [vm_compute; reflexivity|].
  split; cbn [variables constraints]; unfold binary.
  - prove_Forall ltac:(cbn; (left; reflexivity) || (right; reflexivity)).
  - prove_Forall ltac:(unfold satisfies, eval; cbn; lra).
Qed.

Lemma dc_summary_within_capacity_witness :
  exists mb mf rb rf ds,
    model_basic (load scenario_A) = Ok mb /\
    model_fthr (load scenario_A) = Ok mf /\
    results_basic (load scenario_A) mb (solution_of Optimal all_to_dc1) = Ok rb /\
    results_fthr (load scenario_A) mf (solution_of Optimal all_to_dc1) = Ok rf /\
    dc_summary (load scenario_A) rb rf = Ok ds /\
    Forall (fun row =>
              ds_load_basic row <= ds_capacity row * ds_opened_basic row /\
              ds_load_fthr row <= ds_capacity row * ds_opened_fthr row /\
              (0 < ds_customers_basic row -> ds_opened_basic row = 1) /\
              (0 < ds_customers_fthr row -> ds_opened_fthr row = 1))
           ds.
Proof.
  destruct scenario_A_optimum as (mb & Hmb & [Hfb _] & _).
  destruct scenario_A_fthr_feasible as (mf & Hmf & Hff).
  assert (Hne : customers (load scenario_A) <> [])
    by (intros H; vm_compute in H; discriminate H).
  destruct (results_basic_feasible scenario_A mb all_to_dc1 Optimal Hne Hmb Hfb)
    as (rb & cb & Hrb & _).
  destruct (results_fthr_feasible scenario_A mf all_to_dc1 Optimal Hne Hmf Hff)
    as (rf & cf & er & Hrf & _).
  destruct (dc_summary_within_capacity scenario_A mb mf all_to_dc1 all_to_dc1
              Optimal Optimal rb rf Hmb Hmf Hfb Hff Hrb Hrf)
    as (ds & Hds & Hrows).
  exists mb, mf, rb, rf, ds. now repeat split.
Defined.

(** ** A complete run *)

Lemma comparison_Ok (b f : VariantResults) (cb cf : Q) :
  r_total_cost b = Some cb ->
  r_total_cost f = Some cf ->
  ~ cb == 0 ->
  comparison b f
  = Ok {| cmp_total_cost := cf - cb;
          cmp_total_cost_pct := (cf / cb - 1) * 100;
          cmp_opened_dcs :=
            (Z.of_nat (length (r_opened_dcs f))
             - Z.of_nat (length (r_opened_dcs b)))%Z;
          cmp_total_distance := r_total_distance f - r_total_distance b;
          cmp_avg_distance := r_avg_distance f - r_avg_distance b;
          cmp_avg_fthr := (r_avg_fthr f - r_avg_fthr b) * 100 |}.
Proof.
  intros Hb Hf Hz. unfold comparison. rewrite Hb, Hf. cbn [fmt].
  now rewrite !bind_Ok, (pydiv_Ok _ _ Hz), bind_Ok.
Qed.

Lemma script_of_stages t solve (trb trf : list event) (rb rf : VariantResults) c :
  stage_basic (load t) solve = MkScript trb (Ok rb) ->
  stage_fthr (load t) solve = MkScript trf (Ok rf) ->
  comparison rb rf = Ok c ->
  script t solve
  = MkScript (Loaded (length (customers (load t))) (length (dcs (load t)))
              :: trb ++ trf ++ [PrintComparison c; Exported])
             (Ok tt).
Proof.
  intros Hb Hf Hc. unfold script. rewrite Hb.
  unfold mbind, Script_bind. cbn [outcome trace emit].
  rewrite Hf. cbn [outcome trace]. unfold lift. rewrite Hc. cbn [outcome trace].
  reflexivity.
Qed.

(** X11.  With at least one customer, both models built, both solves
    leaving feasible 0/1 solutions and a Basic cost other than zero, the
    script runs to its end without exception: it prints status and metrics
    of Basic, then of FTHR, then the comparison, and exports.  The printed
    costs are the objective values of the two solutions, and the printed
    cost difference is FTHR minus Basic. *)
Theorem script_completes_on_feasible
        (t : Tables) (solve : LpProblem -> Solution)
        (mb mf : LpProblem) (vb vf : LpVariable -> Q) (sb sf : LpStatus) :
  customers (load t) <> [] ->
  model_basic (load t) = Ok mb ->
  model_fthr (load t) = Ok mf ->
  feasible mb vb ->
  feasible mf vf ->
  solve mb = solution_of sb vb ->
  solve mf = solution_of sf vf ->
  ~ eval vb (objective mb) == 0 ->
  exists rb rf c cb cf,
    script t solve
    = MkScript [Loaded (length (customers (load t))) (length (dcs (load t)));
                Solve Basic; PrintStatus Basic sb; PrintMetrics Basic rb;
                Solve FTHR; PrintStatus FTHR sf; PrintMetrics FTHR rf;
                PrintComparison c; Exported]
               (Ok tt) /\
    r_total_cost rb = Some cb /\ cb == eval vb (objective mb) /\
    r_total_cost rf = Some cf /\ cf == eval vf (objective mf) /\
    cmp_total_cost c == eval vf (objective mf) - eval vb (objective mb) /\
    exists tables, export_tables (load t) rb rf = Ok tables.
Proof.
  intros Hne Hmb Hmf Hfb Hff Hsb Hsf Hnz.
  destruct (results_basic_feasible t mb vb sb Hne Hmb Hfb)
    as (rb & cb & Hrb & Hstb & Hcb & Ecb & _).
  destruct (results_fthr_feasible t mf vf sf Hne Hmf Hff)
    as (rf & cf & er & Hrf & Hstf & Hcf & Ecf & _).
  assert (Eb : cb == eval vb (objective mb)).
  { destruct (models_load t (model_basic_complete t mb Hmb)) as (cs & _ & Hb' & _).
    rewrite Hmb in Hb'. injection Hb' as ->. cbn [objective].
    rewrite Ecb, eval_app. unfold transport_terms_of, transport_term.
    now rewrite eval_map. }
  assert (Ef : cf == eval vf (objective mf)).
  { destruct (models_load t (model_fthr_complete t mf Hmf)) as (cs & _ & _ & Hf').
    rewrite Hmf in Hf'. injection Hf' as ->. cbn [objective].
    rewrite Ecf, !eval_app, eval_redelivery.
    unfold transport_terms_of, transport_term. rewrite eval_map. ring. }
  assert (Hz : ~ cb == 0) by (now rewrite Eb).
  pose proof (comparison_Ok rb rf cb cf Hcb Hcf Hz) as Hcmp.
  destruct (export_tables_of_results t mb mf _ _ rb rf Hrb Hrf)
    as (bd & fd & ds & er' & Hex & _).
  eexists rb, rf, _, cb, cf. split.
  { apply (script_of_stages t solve
             [Solve Basic; PrintStatus Basic sb; PrintMetrics Basic rb]
             [Solve FTHR; PrintStatus FTHR sf; PrintMetrics FTHR rf] rb rf _).
    - rewrite stage_basic_cases, Hmb, Hsb, Hrb, Hcb, Hstb. reflexivity.
    - rewrite stage_fthr_cases, Hmf, Hsf, Hrf, Hcf, Hstf. reflexivity.
    - exact Hcmp. }
  split; [exact Hcb|]. split; [exact Eb|]. split; [exact Hcf|].
  split; [exact Ef|]. split; [cbn [cmp_total_cost]; now rewrite Eb, Ef|].
  eauto.
Qed.

Lemma script_completes_on_feasible_witness :
  outcome (script scenario_A solve_to_dc1) = Ok tt.
Proof.
  destruct scenario_A_optimum as (mb & Hmb & [Hfb _] & H280).
  destruct scenario_A_fthr_feasible as (mf & Hmf & Hff).
  assert (Hne : customers (load scenario_A) <> [])
    by (intros H; vm_compute in H; discriminate H).
  assert (Hnz : ~ eval all_to_dc1 (objective mb) == 0)
    by (rewrite H280; intros H; discriminate H).
  destruct (script_completes_on_feasible scenario_A solve_to_dc1 mb mf
              all_to_dc1 all_to_dc1 Optimal Optimal
              Hne Hmb Hmf Hfb Hff eq_refl eq_refl Hnz)
    as (rb & rf & c & cb & cf & Hs & _).
  now rewrite Hs.
Defined.

(** ** Feasibility of the model *)

Lemma eqb_indicator_sum (w : Q) (x : Z) (l : list Z) :
  NoDup l -> x ∈ l ->
  Qsum (fun j => if (j =? x)%Z then w else 0) l == w.
Proof.
  intros Hnd Hx.
  transitivity (Qsum (fun j => if bool_decide (x = j) then w else 0) l);
    [|exact (indicator_sum w x l Hnd Hx)].
  apply Qsum_ext, Forall_forall. intros j _.
  destruct (Z.eqb_spec j x) as [->|Hne].
  - now rewrite bool_decide_eq_true_2.
  - rewrite bool_decide_eq_false_2; [reflexivity | congruence].
Qed.

(** X12.  When the distance matrix is complete and one DC alone can carry
    the total demand (demand equal to the capacity included), serving every
    customer from that DC, the only one opened, is a feasible solution of
    both models. *)
Theorem single_dc_feasible (t : Tables) (j : Z) :
  complete_matrix (load t) = true ->
  j ∈ dcs (load t) ->
  total_demand (load t) <= capacity (load t) !!! j ->
  exists mb mf,
    model_basic (load t) = Ok mb /\
    model_fthr (load t) = Ok mf /\
    feasible mb (all_to j) /\
    feasible mf (all_to j).
Proof.
  intros Hc Hj Hcap.
  destruct (models_load t Hc) as (cs & Hcs & Hb & Hf).
  eexists. eexists. split; [exact Hb|]. split; [exact Hf|].
  assert (Hfeas : binary (x_basic (load t) ++ y_basic (load t)) (all_to j)
                  /\ Forall (satisfies (all_to j)) cs).
  { split.
    - unfold binary. apply Forall_forall. intros x _.
      destruct x as [i j'|j']; cbn; destruct (j' =? j)%Z;
        (left; reflexivity) || (right; reflexivity).
    - rewrite constraints_basic_load in Hcs. injection Hcs as <-.
      apply constraints_meaning. split; [|split].
      + unfold single_assignment. apply Forall_forall. intros i _. cbn [all_to].
        apply eqb_indicator_sum; [|exact Hj]. cbn [dcs load]. apply unique_NoDup.
      + unfold capacity_respected. apply Forall_forall. intros j' Hj'.
        cbn [all_to]. destruct (Z.eqb_spec j' j) as [->|Hne].
        * rewrite Qsum_scal_r. fold (total_demand (load t)). lra.
        * rewrite Qsum_scal_r. lra.
      + unfold linked. apply Forall_forall. intros i _.
        apply Forall_forall. intros j' _. cbn [all_to]. lra. }
  split; exact Hfeas.
Qed.

Lemma single_dc_feasible_witness :
  exists mb mf,
    model_basic (load (scenario 4 35)) = Ok mb /\
    model_fthr (load (scenario 4 35)) = Ok mf /\
    feasible mb (all_to 2) /\
    feasible mf (all_to 2).
Proof.
  apply (single_dc_feasible (scenario 4 35) 2).
  - vm_compute. reflexivity.
  - vm_compute. apply list_elem_of_further, list_elem_of_here.
  - vm_compute. discriminate.
Defined.

(** ** Bounds on the redelivery surcharge *)


Section Surcharge.
Variable t : Tables.
Local Abbreviation pd := (load t).
Hypothesis Hcomplete : complete_matrix pd = true.
Hypothesis Hdist : Forall (fun r => 0 <= mr_distance_km r) (matrix_df t).





End Surcharge.




(** ** The comparison on optimal solutions *)






(** ** How a run can end *)

Lemma stage_fthr_trace pd solve : Forall fthr_event (trace (stage_fthr pd solve)).
Proof.
  rewrite stage_fthr_cases.
  destruct (model_fthr pd) as [m|e]; [|constructor].
  destruct (results_fthr pd m (solve m)) as [r|e];
    [destruct (r_total_cost r)|]; repeat constructor.
Qed.

Lemma stage_basic_Ok_printed pd solve r :
  outcome (stage_basic pd solve) = Ok r ->
  PrintMetrics Basic r ∈ trace (stage_basic pd solve).
Proof.
  rewrite stage_basic_cases.
  destruct (model_basic pd) as [m|e]; [|discriminate].
  destruct (results_basic pd m (solve m)) as [r'|e]; [|discriminate].
  destruct (r_total_cost r'); [|discriminate].
  cbn [outcome trace]. intros [= <-]. set_solver.
Qed.

Lemma stage_fthr_Ok_printed pd solve r :
  outcome (stage_fthr pd solve) = Ok r ->
  PrintMetrics FTHR r ∈ trace (stage_fthr pd solve).
Proof.
  rewrite stage_fthr_cases.
  destruct (model_fthr pd) as [m|e]; [|discriminate].
  destruct (results_fthr pd m (solve m)) as [r'|e]; [|discriminate].
  destruct (r_total_cost r'); [|discriminate].
  cbn [outcome trace]. intros [= <-]. set_solver.
Qed.

(** The script, by the way its stages end. *)
Lemma script_cases t solve :
  script t solve
  = let loaded := Loaded (length (customers (load t))) (length (dcs (load t))) in
    let sb := stage_basic (load t) solve in
    let sf := stage_fthr (load t) solve in
    match outcome sb with
    | Raise e => MkScript (loaded :: trace sb) (Raise e)
    | Ok rb =>
        match outcome sf with
        | Raise e => MkScript (loaded :: trace sb ++ trace sf) (Raise e)
        | Ok rf =>
            match comparison rb rf with
            | Raise e => MkScript (loaded :: trace sb ++ trace sf) (Raise e)
            | Ok c =>
                MkScript (loaded :: trace sb ++ trace sf
                          ++ [PrintComparison c; Exported]) (Ok tt)
            end
        end
    end.
Proof.
  cbv zeta. unfold script.
  destruct (outcome (stage_basic (load t) solve)) as [rb|e] eqn:Eb.
  - rewrite (script_bind_Ok (stage_basic (load t) solve) _ rb Eb).
    destruct (outcome (stage_fthr (load t) solve)) as [rf|e] eqn:Ef.
    + rewrite (script_bind_Ok (stage_fthr (load t) solve) _ rf Ef).
      destruct (comparison rb rf) as [c|e]; cbn; now rewrite ?app_nil_r.
    + rewrite (script_bind_Raise (stage_fthr (load t) solve) _ e Ef).
      reflexivity.
  - rewrite (script_bind_Raise (stage_basic (load t) solve) _ e Eb).
    reflexivity.
Qed.

Lemma stage_events t solve e :
  e ∈ trace (stage_basic (load t) solve) ++ trace (stage_fthr (load t) solve) ->
  basic_event e \/ fthr_event e.
Proof.
  rewrite elem_of_app. intros [Hin|Hin].
  - left. pose proof (stage_basic_trace (load t) solve) as H.
    rewrite Forall_forall in H. now apply H.
  - right. pose proof (stage_fthr_trace (load t) solve) as H.
    rewrite Forall_forall in H. now apply H.
Qed.

(** X15.  Whatever the solver returns, the script exports exactly when it
    ends without exception; a comparison is printed only in such a run,
    after the metrics of both variants, and it is the comparison of those
    two results; the metrics of FTHR are printed only after those of a
    completed Basic stage. *)
Theorem script_ends (t : Tables) (solve : LpProblem -> Solution) :
  (Exported ∈ trace (script t solve) <-> outcome (script t solve) = Ok tt) /\
  (forall c, PrintComparison c ∈ trace (script t solve) ->
     outcome (script t solve) = Ok tt /\
     exists rb rf,
       PrintMetrics Basic rb ∈ trace (script t solve) /\
       PrintMetrics FTHR rf ∈ trace (script t solve) /\
       comparison rb rf = Ok c) /\
  (forall rf, PrintMetrics FTHR rf ∈ trace (script t solve) ->
     exists rb,
       outcome (stage_basic (load t) solve) = Ok rb /\
       PrintMetrics Basic rb ∈ trace (script t solve)).
Proof.
  rewrite script_cases. cbv zeta.
  pose proof (stage_events t solve) as Hev.
  pose proof (stage_basic_trace (load t) solve) as Hbt.
  rewrite Forall_forall in Hbt.
  destruct (outcome (stage_basic (load t) solve)) as [rb|e] eqn:Eb.
  - pose proof (stage_basic_Ok_printed _ _ _ Eb) as Hpb.
    destruct (outcome (stage_fthr (load t) solve)) as [rf|e] eqn:Ef.
    + pose proof (stage_fthr_Ok_printed _ _ _ Ef) as Hpf.
      destruct (comparison rb rf) as [c|e] eqn:Ec; cbn [trace outcome].
      * split; [|split].
        -- split; [reflexivity|]. intros _. elem_tac.
        -- intros c' Hin. split; [reflexivity|].
           exists rb, rf. split; [elem_tac|]. split; [elem_tac|].
           rewrite elem_of_cons, app_assoc, elem_of_app in Hin.
           destruct Hin as [Hin|[Hin|Hin]]; [discriminate Hin| |].
           ++ destruct (Hev _ Hin) as [[]|[]].
           ++ rewrite elem_of_cons, list_elem_of_singleton in Hin.
              destruct Hin as [Hin|Hin]; [now injection Hin as -> | discriminate Hin].
        -- intros rf' _. exists rb. split; [reflexivity | elem_tac].
      * split; [|split].
        -- split; [|discriminate]. rewrite elem_of_cons. intros [Hin|Hin];
             [discriminate Hin | destruct (Hev _ Hin) as [[]|[]]].
        -- intros c' Hin. rewrite elem_of_cons in Hin.
           destruct Hin as [Hin|Hin];
             [discriminate Hin | destruct (Hev _ Hin) as [[]|[]]].
        -- intros rf' _. exists rb. split; [reflexivity | elem_tac].
    + cbn [trace outcome]. split; [|split].
      * split; [|discriminate]. rewrite elem_of_cons. intros [Hin|Hin];
          [discriminate Hin | destruct (Hev _ Hin) as [[]|[]]].
      * intros c' Hin. rewrite elem_of_cons in Hin.
        destruct Hin as [Hin|Hin];
          [discriminate Hin | destruct (Hev _ Hin) as [[]|[]]].
      * intros rf' _. exists rb. split; [reflexivity | elem_tac].
  - cbn [trace outcome]. split; [|split].
    + split; [|discriminate]. rewrite elem_of_cons. intros [Hin|Hin];
        [discriminate Hin | destruct (Hbt _ Hin)].
    + intros c' Hin. rewrite elem_of_cons in Hin.
      destruct Hin as [Hin|Hin]; [discriminate Hin | destruct (Hbt _ Hin)].
    + intros rf' Hin. rewrite elem_of_cons in Hin.
      destruct Hin as [Hin|Hin]; [discriminate Hin | destruct (Hbt _ Hin)].
Qed.
